(** * Revenue screenshot analyzer: a shallow embedding of [src/revenueAnalyzer.ts]

    The analysis pipeline of the repository (number tokenizer, currency
    detector, keyword-proximity scorer, breakdown estimator and the
    orchestrating [analyzeRevenueScreenshot]) is transcribed function by
    function.

    - JavaScript numbers are IEEE-754 binary64 values: the standard
      library's [spec_float] with its operations at precision 53.
    - JavaScript strings are sequences of UTF-16 code units.
    - The pattern of the tokenizer is a term of a small regular expression
      language run by a backtracking matcher with the semantics of the
      language (ordered alternatives, greedy quantifiers).
    - [toUpperCase], [toLowerCase] and [toLocaleString] depend on the
      engine's Unicode tables and locale: the analyzer takes them from a
      [Runtime]; one instance (en-US) is given to run examples.
    - Tesseract.js is a [Tesseract] instance whose three operations return
      or throw; a computation records the engine calls it makes.  What the
      analyzer writes to the console is left out.

    Properties of the real numbers are used only to bound the rounding
    errors of the growth computation. *)

From Stdlib Require Import Reals Lra.
From Stdlib Require Import ZArith List Bool String Ascii Lia Permutation Sorted.
From Stdlib Require Import SpecFloat.
Import ListNotations.
Local Open Scope Z_scope.

Set Implicit Arguments.

(** ** JavaScript numbers *)

Module Number.

Definition prec : Z := 53.
Definition emax : Z := 1024.

Definition number := spec_float.

Definition add : number -> number -> number := SFadd prec emax.
Definition sub : number -> number -> number := SFsub prec emax.
Definition mul : number -> number -> number := SFmul prec emax.
Definition div : number -> number -> number := SFdiv prec emax.

(** [x < y], [x > y], [x === y] and [isNaN(x)] *)
Definition lt (x y : number) : bool := SFltb x y.
Definition gt (x y : number) : bool := SFltb y x.
Definition le (x y : number) : bool := SFleb x y.
Definition strict_eq (x y : number) : bool := SFeqb x y.
Definition isNaN (x : number) : bool :=
  match x with S754_nan => true | _ => false end.
Definition isFinite (x : number) : bool :=
  match x with S754_zero _ | S754_finite _ _ _ => true | _ => false end.

(** ToBoolean on a number: [0], [-0] and [NaN] are falsy. *)
Definition truthy (x : number) : bool :=
  match x with S754_zero _ | S754_nan => false | _ => true end.

Definition NaN : number := S754_nan.
Definition Infinity : number := S754_infinity false.
Definition zero : number := S754_zero false.

(** The number nearest to the integer [n] (exact up to [2^53]). *)
Definition of_Z (n : Z) : number := binary_normalize prec emax n 0 false.

(** The number nearest to [n / 10^k], ties to even: the value of a decimal
    literal with digits [n] of which the last [k] follow the point. *)
Definition of_decimal (n : Z) (k : nat) : number :=
  match n with
  | Zpos p =>
      div (S754_finite false p 0)
          (S754_finite false (Z.to_pos (10 ^ Z.of_nat k)) 0)
  | _ => zero
  end.

(** [Math.round]: the nearest integer, halves going towards +Infinity;
    the sign of a zero result is the sign of the argument. *)
Definition Math_round (x : number) : number :=
  match x with
  | S754_finite s m e =>
      if 0 <=? e then x
      else
        let sm := if s then Z.neg m else Z.pos m in
        let n := (2 * sm + 2 ^ (- e)) / 2 ^ (1 - e) in
        if n =? 0 then S754_zero s else of_Z n
  | _ => x
  end.

(** [Math.min] of two arguments. *)
Definition Math_min (x y : number) : number :=
  if isNaN x || isNaN y then NaN
  else if lt x y then x
  else if lt y x then y
  else match x with S754_zero true => x | _ => y end.

Definition max2 (x y : number) : number :=
  if isNaN x || isNaN y then NaN
  else if lt x y then y
  else if lt y x then x
  else match x with S754_zero false => x | _ => y end.

(** [Math.max(...xs)]: [-Infinity] on no argument. *)
Definition Math_max (xs : list number) : number :=
  fold_left max2 xs (S754_infinity true).

(** The value of [x] counted in units of [2^-1074], the smallest positive
    double, for a finite [x] whose exponent is at least [-1074]. *)
Definition units (x : number) : Z :=
  match x with
  | S754_finite s m e =>
      (if s then Z.neg m else Z.pos m) * 2 ^ (e + 1074)
  | _ => 0
  end.

(** The literals of the source, rounded once. *)
Definition n0_1 : number := Eval vm_compute in of_decimal 1 1.
Definition n0_2 : number := Eval vm_compute in of_decimal 2 1.
Definition n0_3 : number := Eval vm_compute in of_decimal 3 1.
Definition n0_8 : number := Eval vm_compute in of_decimal 8 1.
Definition n0_85 : number := Eval vm_compute in of_decimal 85 2.
Definition n1 : number := Eval vm_compute in of_Z 1.
Definition n12 : number := Eval vm_compute in of_Z 12.
Definition n20 : number := Eval vm_compute in of_Z 20.
Definition n22 : number := Eval vm_compute in of_Z 22.
Definition n100 : number := Eval vm_compute in of_Z 100.
Definition n10200 : number := Eval vm_compute in of_Z 10200.
Definition n12450 : number := Eval vm_compute in of_Z 12450.
Definition n45680 : number := Eval vm_compute in of_Z 45680.

End Number.
Import Number.

(** ** JavaScript strings *)

Module JSString.

(** A string is its sequence of UTF-16 code units. *)
Definition jsstring := list N.

(** A literal of the source in the Basic Latin range. *)
Definition str (s : string) : jsstring :=
  map N_of_ascii (list_ascii_of_string s).

Definition length (s : jsstring) : Z := Z.of_nat (List.length s).

Fixpoint eqb (s t : jsstring) : bool :=
  match s, t with
  | [], [] => true
  | a :: s', b :: t' => N.eqb a b && eqb s' t'
  | _, _ => false
  end.

Fixpoint startsWith (s pat : jsstring) {struct pat} : bool :=
  match pat, s with
  | [], _ => true
  | p :: pat', c :: s' => N.eqb p c && startsWith s' pat'
  | _ :: _, [] => false
  end.

(** The offset of the first occurrence of [pat] in [s], if any. *)
Fixpoint find (s pat : jsstring) : option nat :=
  if startsWith s pat then Some O
  else match s with
       | [] => None
       | _ :: s' => option_map S (find s' pat)
       end.

(** [s.indexOf(pat)]: [-1] when [pat] does not occur. *)
Definition indexOf (s pat : jsstring) : Z :=
  match find s pat with
  | Some i => Z.of_nat i
  | None => -1
  end.

(** [s.includes(pat)] *)
Definition includes (s pat : jsstring) : bool :=
  match find s pat with Some _ => true | None => false end.

(** [s.slice(from, to)]: a negative index counts from the end. *)
Definition slice (s : jsstring) (from to : Z) : jsstring :=
  let len := length s in
  let clamp i := if i <? 0 then Z.max (len + i) 0 else Z.min i len in
  let a := clamp from in
  let b := clamp to in
  firstn (Z.to_nat (b - a)) (skipn (Z.to_nat a) s).

(** [s.replace(/c/g, '')] for a single code unit [c]. *)
Definition remove_all (c : N) (s : jsstring) : jsstring :=
  filter (fun x => negb (N.eqb x c)) s.

Definition is_digit (c : N) : bool := (48 <=? c)%N && (c <=? 57)%N.
Definition digit_value (c : N) : Z := Z.of_N c - 48.

End JSString.
Import JSString.

(** ** Regular expressions

  The fragment of the ECMAScript pattern language used by the source, with
  the backtracking semantics of the language: alternatives are tried in the
  order written, quantifiers are greedy, and an iteration of [*] that
  consumes nothing is rejected. *)

Module Regex.

Inductive regex : Type :=
| Eps                          (* the empty pattern *)
| Chr (c : N)                  (* a literal code unit *)
| Digit                        (* \d *)
| Seq (r1 r2 : regex)          (* r1r2 *)
| Alt (r1 r2 : regex)          (* r1|r2 *)
| Opt (r : regex)              (* r? *)
| Star (r : regex).            (* r* *)

(** r+ *)
Definition Plus (r : regex) : regex := Seq r (Star r).

(** r{n} *)
Fixpoint Repeat (r : regex) (n : nat) : regex :=
  match n with
  | O => Eps
  | S n' => Seq r (Repeat r n')
  end.

(** r{0,n} *)
Fixpoint Upto (r : regex) (n : nat) : regex :=
  match n with
  | O => Eps
  | S n' => Opt (Seq r (Upto r n'))
  end.

(** r{lo,hi} *)
Definition Range (r : regex) (lo hi : nat) : regex :=
  Seq (Repeat r lo) (Upto r (hi - lo)).

(** [exec r s k] matches [r] at the head of [s] and hands what is left to
    the continuation [k]; a failure of [k] makes the matcher backtrack. *)
Fixpoint exec (r : regex) (s : jsstring)
         (k : jsstring -> option jsstring) {struct r} : option jsstring :=
  match r with
  | Eps => k s
  | Chr c =>
      match s with
      | a :: s' => if N.eqb a c then k s' else None
      | [] => None
      end
  | Digit =>
      match s with
      | a :: s' => if is_digit a then k s' else None
      | [] => None
      end
  | Seq r1 r2 => exec r1 s (fun s1 => exec r2 s1 k)
  | Alt r1 r2 =>
      match exec r1 s k with
      | Some rest => Some rest
      | None => exec r2 s k
      end
  | Opt r1 =>
      match exec r1 s k with
      | Some rest => Some rest
      | None => k s
      end
  | Star r1 =>
      (fix star (fuel : nat) (s : jsstring) {struct fuel} : option jsstring :=
         match fuel with
         | O => k s
         | S fuel' =>
             match
               exec r1 s
                 (fun s1 =>
                    if (List.length s1 <? List.length s)%nat
                    then star fuel' s1 else None)
             with
             | Some rest => Some rest
             | None => k s
             end
         end) (List.length s) s
  end.

(** The successive matches of a pattern with the [g] flag, each with the
    offset it starts at: the search resumes where the last match ended, one
    code unit further after an empty match. *)
Fixpoint matchAll_from (fuel : nat) (r : regex) (pos : nat) (s : jsstring)
  : list (nat * jsstring) :=
  match fuel with
  | O => []
  | S fuel' =>
      match exec r s Some with
      | Some rest =>
          let n := (List.length s - List.length rest)%nat in
          (pos, firstn n s) ::
            match n with
            | O =>
                match s with
                | [] => []
                | _ :: s' => matchAll_from fuel' r (S pos) s'
                end
            | S _ => matchAll_from fuel' r (pos + n) rest
            end
      | None =>
          match s with
          | [] => []
          | _ :: s' => matchAll_from fuel' r (S pos) s'
          end
      end
  end.

Definition matchAll (r : regex) (s : jsstring) : list (nat * jsstring) :=
  matchAll_from (S (List.length s)) r O s.

(** [s.match(r)] for a global pattern: [null] when nothing matches. *)
Definition String_match (s : jsstring) (r : regex) : option (list jsstring) :=
  match matchAll r s with
  | [] => None
  | ms => Some (map snd ms)
  end.

End Regex.
Import Regex.

(** ** [parseFloat] *)

Module Global.

Definition is_white (c : N) : bool :=
  existsb (N.eqb c)
    [9; 10; 11; 12; 13; 32; 160; 5760; 8232; 8233; 8239; 8287; 12288; 65279]%N
  || ((8192 <=? c)%N && (c <=? 8202)%N).

Fixpoint trimStart (s : jsstring) : jsstring :=
  match s with
  | c :: s' => if is_white c then trimStart s' else s
  | [] => []
  end.

(** The longest prefix of decimal digits, and the rest. *)
Fixpoint span_digits (s : jsstring) : jsstring * jsstring :=
  match s with
  | c :: s' =>
      if is_digit c
      then let (ds, rest) := span_digits s' in (c :: ds, rest)
      else ([], s)
  | [] => ([], [])
  end.

(** The integer written by a sequence of decimal digits. *)
Definition digits_value (ds : jsstring) : Z :=
  fold_left (fun acc c => 10 * acc + digit_value c) ds 0.

(** The number nearest to [n * 10^e]. *)
Definition of_scientific (n e : Z) : number :=
  if 0 <=? e then of_Z (n * 10 ^ e)
  else match n with
       | Zpos p =>
           div (S754_finite false p 0) (S754_finite false (Z.to_pos (10 ^ (- e))) 0)
       | _ => zero
       end.

(** The exponent part [e[+-]ddd], when one is present. *)
Definition exponent_part (s : jsstring) : Z :=
  match s with
  | c :: s' =>
      if N.eqb c 101 || N.eqb c 69 then
        let (neg, s'') :=
          match s' with
          | 45%N :: t => (true, t)
          | 43%N :: t => (false, t)
          | _ => (false, s')
          end in
        let (ds, _) := span_digits s'' in
        match ds with
        | [] => 0
        | _ => if neg then - digits_value ds else digits_value ds
        end
      else 0
  | [] => 0
  end.

(** The magnitude of the longest decimal literal at the head of [s]. *)
Definition unsigned_literal (s : jsstring) : number :=
  if startsWith s (str "Infinity") then Infinity
  else
    let (int_ds, rest) := span_digits s in
    let (frac_ds, rest') :=
      match rest with
      | 46%N :: t => span_digits t
      | _ => ([], rest)
      end in
    match int_ds ++ frac_ds with
    | [] => NaN
    | ds =>
        of_scientific (digits_value ds)
          (exponent_part rest' - Z.of_nat (List.length frac_ds))
    end.

Definition parseFloat (s : jsstring) : number :=
  match trimStart s with
  | 45%N :: t => SFopp (unsigned_literal t)
  | 43%N :: t => unsigned_literal t
  | t => unsigned_literal t
  end.

End Global.
Import Global.

(** ** [Array.prototype.sort]

    With a comparison function, the language fixes the result whenever the
    function is a consistent ordering: the permutation sorted by it in which
    elements that compare equal keep their relative order.  A result of the
    function that is [NaN] counts as [0]; [x] is moved behind [y] exactly
    when [comparefn(x, y) > 0]. *)

Module Array.

Section Sort.
Variable A : Type.
Variable comparefn : A -> A -> number.

Definition after (x y : A) : bool := gt (comparefn x y) zero.

Fixpoint insert (x : A) (l : list A) : list A :=
  match l with
  | [] => [x]
  | y :: l' => if after x y then y :: insert x l' else x :: l
  end.

Definition sort (l : list A) : list A := fold_right insert [] l.

End Sort.

(** [l[i]]: [undefined] past the end. *)
Definition get {A : Type} (l : list A) (i : nat) : option A := nth_error l i.

(** [undefined] read as a number. *)
Definition to_number (v : option number) : number :=
  match v with Some x => x | None => NaN end.

(** [v || d] where [v] is a number or [undefined]. *)
Definition or_else (v : option number) (d : number) : number :=
  match v with
  | Some x => if truthy x then x else d
  | None => d
  end.

End Array.

(** ** The host: built-ins that depend on the engine and its locale *)

Class Runtime : Type := {
  toUpperCase : jsstring -> jsstring;
  toLowerCase : jsstring -> jsstring;
  toLocaleString : number -> jsstring
}.

(** ** Exceptions and the calls made to the OCR engine *)

Inductive outcome (A : Type) : Type :=
| Returns (a : A)
| Throws (error : jsstring).
Arguments Returns {A} a.
Arguments Throws {A} error.

Inductive call : Type := CreateWorker | Recognize | Terminate.

(** A computation: the engine calls it made, in order, and how it ended. *)
Definition Eff (A : Type) : Type := (list call * outcome A)%type.

Definition ret {A : Type} (a : A) : Eff A := ([], Returns a).
Definition throw {A : Type} (error : jsstring) : Eff A := ([], Throws error).
Definition perform {A : Type} (c : call) (o : outcome A) : Eff A := ([c], o).

Definition bind {A B : Type} (m : Eff A) (f : A -> Eff B) : Eff B :=
  match m with
  | (cs, Returns a) => let (cs', r) := f a in (cs ++ cs', r)
  | (cs, Throws error) => (cs, Throws error)
  end.

Definition tryCatch {A : Type} (m : Eff A) (handler : jsstring -> Eff A) : Eff A :=
  match m with
  | (cs, Throws error) => let (cs', r) := handler error in (cs ++ cs', r)
  | (cs, Returns a) => (cs, Returns a)
  end.

Notation "x <- m ;; k" := (bind m (fun x => k))
  (at level 61, m at next level, right associativity).

(** Tesseract.js, as far as the analyzer drives it. *)
Class Tesseract (File Worker : Type) : Type := {
  createWorker : outcome Worker;
  recognize : Worker -> File -> outcome jsstring;
  terminate : Worker -> outcome unit
}.

(** ** The analyzer *)

Inductive AnalysisMethod : Type := ocr | mock.

Record RevenueAnalysis : Type := {
  totalRevenue : number;
  currency : jsstring;
  thisMonth : number;
  lastMonth : number;
  growth : number;
  confidence : number;
  rawText : jsstring;
  detectedNumbers : list number;
  analysisMethod : AnalysisMethod
}.

Module Scored.
Record t : Type := { value : number; confidence : number }.
End Scored.

Module Breakdown.
Record t : Type := { thisMonth : number; lastMonth : number; growth : number }.
End Breakdown.

(** /\d{1,3}(,\d{3})*(\.\d+)?|\d+\.\d+|\d+/g *)
Definition numberPattern : regex :=
  Alt (Seq (Range Digit 1 3)
         (Seq (Star (Seq (Chr 44) (Repeat Digit 3)))
              (Opt (Seq (Chr 46) (Plus Digit)))))
      (Alt (Seq (Plus Digit) (Seq (Chr 46) (Plus Digit)))
           (Plus Digit)).

Definition extractNumbers (text : jsstring) : list number :=
  let matches := String_match text numberPattern in
  match matches with
  | None => []
  | Some matches =>
      filter (fun num => gt num zero)
        (filter (fun num => negb (isNaN num))
           (map (fun m => let cleaned := remove_all 44 m in parseFloat cleaned)
              matches))
  end.

(** The entries of [currencyMap] in the order [Object.entries] lists them,
    which for these keys is the order of the literal. *)
Definition currencyMap : list (jsstring * jsstring) :=
  [ (str "AED", str "AED");
    (str "Dh", str "AED");
    ([255; 216; 255; 177; 376; 225; 376; 214]%N, str "AED");
    (str "$", str "USD");
    (str "USD", str "USD");
    ([8218; 199; 168]%N, str "EUR");
    (str "EUR", str "EUR");
    ([172; 163]%N, str "GBP");
    (str "GBP", str "GBP");
    ([8218; 199; 960]%N, str "INR");
    (str "INR", str "INR");
    (str "Rs", str "INR") ].

Definition revenueKeywords : list jsstring :=
  map str [ "revenue"; "sales"; "total"; "income"; "earnings";
            "gross"; "net"; "received"; "collected"; "turnover" ]%string.

Definition calculateGrowth (current previous : number) : number :=
  if strict_eq previous zero then zero
  else mul (div (sub current previous) previous) n100.

Definition estimateBreakdown (numbers : list number) : Breakdown.t :=
  if (List.length numbers =? 0)%nat then
    {| Breakdown.thisMonth := zero; Breakdown.lastMonth := zero;
       Breakdown.growth := zero |}
  else if (List.length numbers =? 1)%nat then
    let total := Array.to_number (Array.get numbers 0) in
    let estimatedMonthly := div total n12 in
    {| Breakdown.thisMonth := Math_round estimatedMonthly;
       Breakdown.lastMonth := Math_round (mul estimatedMonthly n0_8);
       Breakdown.growth := n20 |}
  else
    let sortedNumbers := Array.sort (fun a b => sub b a) numbers in
    let thisMonth := Array.to_number (Array.get sortedNumbers 1) in
    let lastMonth := Array.or_else (Array.get sortedNumbers 2) (mul thisMonth n0_85) in
    {| Breakdown.thisMonth := Math_round thisMonth;
       Breakdown.lastMonth := Math_round lastMonth;
       Breakdown.growth := Math_round (calculateGrowth thisMonth lastMonth) |}.

(** The result returned when the analysis fails. *)
Definition fallbackAnalysis : RevenueAnalysis :=
  {| totalRevenue := n45680;
     currency := str "AED";
     thisMonth := n12450;
     lastMonth := n10200;
     growth := n22;
     confidence := n0_1;
     rawText := str "OCR failed";
     detectedNumbers := [];
     analysisMethod := mock |}.

Section Analyzer.
Context {RT : Runtime}.

Fixpoint detectCurrency_loop (upperText : jsstring)
         (entries : list (jsstring * jsstring)) : jsstring :=
  match entries with
  | [] => str "AED"
  | (pattern, code) :: rest =>
      if includes upperText (toUpperCase pattern) then code
      else detectCurrency_loop upperText rest
  end.

Definition detectCurrency (text : jsstring) : jsstring :=
  let upperText := toUpperCase text in
  detectCurrency_loop upperText currencyMap.

(** The text inspected around an occurrence at [numIndex]. *)
Definition contextOf (text : jsstring) (numIndex : Z) : jsstring :=
  let contextStart := Z.max 0 (numIndex - 100) in
  let contextEnd := Z.min (JSString.length text) (numIndex + 100) in
  toLowerCase (slice text contextStart contextEnd).

(** The body of the [map] callback of [findRevenueNumbers]. *)
Definition scoreNumber (text : jsstring) (num : number) : Scored.t :=
  let confidence := n0_3 in
  let numStr := toLocaleString num in
  let numIndex := indexOf text numStr in
  let confidence :=
    if negb (numIndex =? -1) then
      let context := contextOf text numIndex in
      fold_left
        (fun confidence keyword =>
           if includes context keyword then add confidence n0_2 else confidence)
        revenueKeywords confidence
    else confidence in
  {| Scored.value := num; Scored.confidence := Math_min confidence n1 |}.

Definition findRevenueNumbers (text : jsstring) (numbers : list number)
  : list Scored.t :=
  Array.sort (fun a b => sub (Scored.confidence b) (Scored.confidence a))
    (map (scoreNumber text) numbers).

(** Steps 5 to 7 and the result of the successful path. *)
Definition assemble (extractedText : jsstring) (allNumbers : list number)
           (currency : jsstring) (revenueNumbers : list Scored.t)
  : RevenueAnalysis :=
  let totalRevenue :=
    match revenueNumbers with
    | top :: _ => Scored.value top
    | [] => if (0 <? List.length allNumbers)%nat then Math_max allNumbers else zero
    end in
  let breakdown := estimateBreakdown allNumbers in
  let overallConfidence :=
    match revenueNumbers with
    | top :: _ => Scored.confidence top
    | [] => n0_3
    end in
  {| totalRevenue := Math_round totalRevenue;
     currency := currency;
     thisMonth := Breakdown.thisMonth breakdown;
     lastMonth := Breakdown.lastMonth breakdown;
     growth := Breakdown.growth breakdown;
     confidence := overallConfidence;
     rawText := extractedText;
     detectedNumbers := allNumbers;
     analysisMethod := ocr |}.

Context {File Worker : Type} {OCR : Tesseract File Worker}.

Definition extractTextFromImage (imageFile : File) : Eff jsstring :=
  tryCatch
    (worker <- perform CreateWorker createWorker ;;
     text <- perform Recognize (recognize worker imageFile) ;;
     _ <- perform Terminate (terminate worker) ;;
     ret text)
    (fun error => throw (str "Failed to extract text from image")).

Definition analyzeRevenueScreenshot (imageFile : File) : Eff RevenueAnalysis :=
  tryCatch
    (extractedText <- extractTextFromImage imageFile ;;
     let allNumbers := extractNumbers extractedText in
     let currency := detectCurrency extractedText in
     let revenueNumbers := findRevenueNumbers extractedText allNumbers in
     ret (assemble extractedText allNumbers currency revenueNumbers))
    (fun error => ret fallbackAnalysis).

End Analyzer.

(** ** A concrete host, for running the analyzer

    [toLocaleString] in the en-US locale with the default options: digits
    grouped by three, at most three fraction digits (the value rounded half
    away from zero), no trailing zeros.  The case mappings are those of the
    Basic Latin and Latin-1 letters; other code units are left as they are. *)

Module EnUS.

Definition upper_unit (c : N) : jsstring :=
  if ((97 <=? c) && (c <=? 122))%N then [c - 32]%N
  else if ((224 <=? c) && (c <=? 254) && negb (c =? 247))%N then [c - 32]%N
  else if (c =? 255)%N then [376]%N
  else if (c =? 181)%N then [924]%N
  else if (c =? 223)%N then [83; 83]%N
  else [c].

Definition lower_unit (c : N) : jsstring :=
  if ((65 <=? c) && (c <=? 90))%N then [c + 32]%N
  else if ((192 <=? c) && (c <=? 222) && negb (c =? 215))%N then [c + 32]%N
  else [c].

Definition upper (s : jsstring) : jsstring := flat_map upper_unit s.
Definition lower (s : jsstring) : jsstring := flat_map lower_unit s.

Definition digit_unit (d : Z) : N := Z.to_N (48 + d).

(** The decimal digits of [n], most significant first. *)
Fixpoint digits_fuel (fuel : nat) (n : Z) (acc : jsstring) : jsstring :=
  match fuel with
  | O => acc
  | S fuel' =>
      if n <? 10 then digit_unit n :: acc
      else digits_fuel fuel' (n / 10) (digit_unit (n mod 10) :: acc)
  end.

Definition digits (n : Z) : jsstring :=
  digits_fuel (S (Z.to_nat (Z.log2 n))) n [].

(** A comma after every third digit, on the digits in reverse. *)
Fixpoint group_rev (ds : jsstring) : jsstring :=
  match ds with
  | a :: b :: c :: ((_ :: _) as rest) => a :: b :: c :: 44%N :: group_rev rest
  | _ => ds
  end.

Definition grouped (n : Z) : jsstring := rev (group_rev (rev (digits n))).

Definition fraction (f : Z) : jsstring :=
  if f =? 0 then []
  else if f mod 100 =? 0 then [46%N; digit_unit (f / 100)]
  else if f mod 10 =? 0 then [46%N; digit_unit (f / 100); digit_unit (f / 10 mod 10)]
  else [46%N; digit_unit (f / 100); digit_unit (f / 10 mod 10); digit_unit (f mod 10)].

(** The magnitude [m * 2^e] in thousandths, rounded half up. *)
Definition thousandths (m : positive) (e : Z) : Z :=
  if 0 <=? e then Z.pos m * 1000 * 2 ^ e
  else (2 * (Z.pos m * 1000) + 2 ^ (- e)) / 2 ^ (1 - e).

Definition format (x : number) : jsstring :=
  match x with
  | S754_nan => str "NaN"
  | S754_infinity s => (if s then [45%N] else []) ++ [8734%N]
  | S754_zero s => (if s then [45%N] else []) ++ str "0"
  | S754_finite s m e =>
      let q := thousandths m e in
      (if s then [45%N] else []) ++ grouped (q / 1000) ++ fraction (q mod 1000)
  end.

#[global] Instance runtime : Runtime :=
  {| toUpperCase := upper;
     toLowerCase := lower;
     toLocaleString := format |}.

End EnUS.

(** Two engines for running the orchestrator: one that reads the text an
    image shows (an image being given by that text), one that cannot start. *)

Module Engines.

Definition reading : Tesseract jsstring unit :=
  {| createWorker := Returns tt;
     recognize := fun _ image => Returns image;
     terminate := fun _ => Returns tt |}.

Definition broken : Tesseract jsstring unit :=
  {| createWorker := Throws (str "worker failed to load");
     recognize := fun _ image => Returns image;
     terminate := fun _ => Returns tt |}.

Definition unreadable : Tesseract jsstring unit :=
  {| createWorker := Returns tt;
     recognize := fun _ _ => Throws (str "cannot read image");
     terminate := fun _ => Returns tt |}.

End Engines.

(** * Vocabulary of the properties *)

Definition emin : Z := SpecFloat.emin prec emax.

(** The result of rounding a non-zero magnitude with sign [s]: a finite
    number of that sign, or the infinity of that sign. *)
Definition positive_result (s : bool) (x : number) : Prop :=
  (exists m e, x = S754_finite s m e) \/ x = S754_infinity s.

(** A positive double: a valid binary64 value greater than zero
    (possibly +Infinity). *)
Definition positive_double (x : number) : Prop :=
  valid_binary prec emax x = true /\ gt x zero = true.

(** The position of a positive double on the number line: its value in
    units of [2^-1074], +Infinity lying beyond every finite value. *)
Definition rank (x : number) : Z :=
  match x with
  | S754_infinity false => 2 ^ 2098
  | _ => units x
  end.

(** Sorting by a key, largest first: [l.sort((a, b) => key(b) - key(a))]. *)
Section ByKey.
Variable A : Type.
Variable key : A -> number.

Definition descending (a b : A) : number := sub (key b) (key a).

Definition keys_positive (l : list A) : Prop :=
  Forall (fun a => positive_double (key a)) l.

(** [a] may stand before [b]: its key is at least as large. *)
Definition before (a b : A) : Prop := le (key b) (key a) = true.

End ByKey.

(** A token [t] found at offset [p] reads [t] there. *)
Definition occurs_at (text : jsstring) (pt : nat * jsstring) : Prop :=
  firstn (List.length (snd pt)) (skipn (fst pt) text) = snd pt.

(** Two matches in the order of the text: the second starts further, and
    not before the first ends. *)
Definition precedes (a b : nat * jsstring) : Prop :=
  (fst a + List.length (snd a) <= fst b)%nat /\ (fst a < fst b)%nat.

(** The number a token stands for in [extractNumbers]. *)
Definition tokenValue (pt : nat * jsstring) : number :=
  parseFloat (remove_all 44 (snd pt)).

(** The context of an occurrence at offset [i]: the hundred code units
    before [i] and the hundred from [i] on, as far as the text reaches. *)
Definition window (text : jsstring) (i : nat) : jsstring :=
  skipn (i - 100) (firstn (i + 100) text).

(** The base confidence after [k] increments of 0.2. *)
Definition boost (k : nat) : number := Nat.iter k (fun c => add c n0_2) n0_3.

(** How many of the keywords occur in the context of the first occurrence
    of the number's formatted string; none when it does not occur. *)
Definition keywordHits {RT : Runtime} (text : jsstring) (num : number) : nat :=
  match find text (toLocaleString num) with
  | Some i =>
      List.length (filter (includes (toLowerCase (window text i))) revenueKeywords)
  | None => O
  end.

(** The real number a finite double stands for. *)
Definition B2R (x : number) : R :=
  match x with
  | S754_finite s m e => (IZR (if s then Z.neg m else Z.pos m) * powerRZ 2 e)%R
  | _ => 0%R
  end.

(** The relative spacing of the doubles, [2^-52]. *)
Definition eps : R := (/ 4503599627370496)%R.

(** [r] is [v] up to a relative error of [eps]. *)
Definition near (r v : R) : Prop :=
  ((1 - eps) * v <= r <= (1 + eps) * v)%R.

(** A double with a full mantissa. *)
Definition normal (m : positive) (e : Z) : Prop :=
  bounded prec emax m e = true /\ Z.pos (digits2_pos m) = prec.

(** A one followed by 103 groups of three zeros: the integer [10^309]. *)
Definition overflowing : jsstring :=
  str "1" ++ List.concat (repeat (str ",000") 103).

(** A code unit of the Basic Latin block other than a lowercase letter. *)
Definition upper_stable (c : N) : bool :=
  (c <? 97)%N || ((122 <? c)%N && (c <? 128)%N).

(** What the currency examples need of [toUpperCase]: text made of such
    code units is mapped to itself, wherever it stands. *)
Definition preserves_basic_latin (RT : Runtime) : Prop :=
  forall s : jsstring,
    forallb upper_stable s = true ->
    toUpperCase s = s /\
    forall pre post : jsstring,
      exists pre' post', toUpperCase (pre ++ s ++ post) = pre' ++ s ++ post'.

(** * Properties *)

(** ** Rounding to binary64 *)

Lemma digits2_pos_bounds (m : positive) :
  2 ^ (Z.pos (digits2_pos m) - 1) <= Z.pos m < 2 ^ Z.pos (digits2_pos m).
Proof.
  induction m as [m IH | m IH |]; simpl digits2_pos.
  - rewrite Pos2Z.inj_succ.
    replace (Z.succ (Z.pos (digits2_pos m)) - 1) with (Z.succ (Z.pos (digits2_pos m) - 1)) by lia.
    rewrite !Z.pow_succ_r by lia. lia.
  - rewrite Pos2Z.inj_succ.
    replace (Z.succ (Z.pos (digits2_pos m)) - 1) with (Z.succ (Z.pos (digits2_pos m) - 1)) by lia.
    rewrite !Z.pow_succ_r by lia. lia.
  - simpl. lia.
Qed.

Lemma shr_1_m (r : shr_record) :
  0 <= shr_m r -> shr_m (shr_1 r) = shr_m r / 2.
Proof.
  destruct r as [m r s]; simpl. intros Hm.
  destruct m as [| [p | p |] | p]; cbn [shr_m]; try lia; try reflexivity.
  - apply Z.div_unique with 1; lia.
  - apply Z.div_unique with 0; lia.
Qed.

Lemma iter_shr_m (p : positive) :
  forall r, 0 <= shr_m r ->
            shr_m (iter_pos shr_1 p r) = shr_m r / 2 ^ Z.pos p.
Proof.
  induction p as [p IH | p IH |]; intros r Hr; simpl iter_pos.
  - assert (H1 : 0 <= shr_m (shr_1 r)) by (rewrite shr_1_m by assumption; apply Z.div_pos; lia).
    assert (H2 : 0 <= shr_m (iter_pos shr_1 p (shr_1 r))).
    { rewrite IH by assumption. apply Z.div_pos; [assumption|]. apply Z.pow_pos_nonneg; lia. }
    rewrite IH, IH, shr_1_m by assumption.
    rewrite !Z.div_div by (try apply Z.pow_pos_nonneg; lia).
    f_equal.
    replace (Z.pos p~1) with (1 + Z.pos p + Z.pos p) by lia.
    rewrite !Z.pow_add_r by lia. rewrite Z.pow_1_r. lia.
  - assert (H2 : 0 <= shr_m (iter_pos shr_1 p r)).
    { rewrite IH by assumption. apply Z.div_pos; [assumption|]. apply Z.pow_pos_nonneg; lia. }
    rewrite IH, IH by assumption.
    rewrite !Z.div_div by (try apply Z.pow_pos_nonneg; lia).
    f_equal.
    replace (Z.pos p~0) with (Z.pos p + Z.pos p) by lia.
    rewrite Z.pow_add_r by lia. reflexivity.
  - rewrite shr_1_m by assumption. reflexivity.
Qed.

Lemma shr_m_of_loc (m : Z) (l : location) : shr_m (shr_record_of_loc m l) = m.
Proof. destruct l as [| []]; reflexivity. Qed.

Lemma Zdigits2_bounds (m : Z) :
  0 < m -> 2 ^ (Zdigits2 m - 1) <= m < 2 ^ Zdigits2 m.
Proof.
  destruct m as [| p | p]; try lia. intros _. apply digits2_pos_bounds.
Qed.

Lemma shr_fexp_pos (m e : Z) (l : location) :
  0 < m -> emin <= e ->
  0 < shr_m (fst (shr_fexp prec emax m e l)) /\ emin <= snd (shr_fexp prec emax m e l).
Proof.
  intros Hm He. unfold shr_fexp, shr.
  pose proof (Zdigits2_bounds Hm) as Hd.
  assert (Hd1 : 1 <= Zdigits2 m) by (destruct m; simpl in *; lia).
  remember (fexp prec emax (Zdigits2 m + e) - e) as n eqn:Hn.
  destruct n as [| n | n]; simpl; rewrite ?shr_m_of_loc; try (split; lia).
  rewrite iter_shr_m by (rewrite shr_m_of_loc; lia).
  rewrite shr_m_of_loc. split; [| lia].
  assert (Hlt : Z.pos n <= Zdigits2 m - 1).
  { unfold fexp, SpecFloat.emin in Hn. unfold emin, SpecFloat.emin, prec, emax in *. lia. }
  apply Z.div_str_pos. split; [apply Z.pow_pos_nonneg; lia|].
  apply Z.le_trans with (2 ^ (Zdigits2 m - 1)); [| lia].
  apply Z.pow_le_mono_r; lia.
Qed.

Lemma round_nearest_even_ge (m : Z) (l : location) : m <= round_nearest_even m l.
Proof. destruct l as [| []]; simpl; try lia. destruct (Z.even m); lia. Qed.

Lemma binary_round_aux_pos (s : bool) (m e : Z) (l : location) :
  0 < m -> emin <= e -> positive_result s (binary_round_aux prec emax s m e l).
Proof.
  intros Hm He. unfold binary_round_aux.
  destruct (shr_fexp_pos l Hm He) as [H1 H2].
  destruct (shr_fexp prec emax m e l) as [mrs' e']. simpl in H1, H2.
  pose proof (round_nearest_even_ge (shr_m mrs') (loc_of_shr_record mrs')) as Hr.
  assert (Hm' : 0 < round_nearest_even (shr_m mrs') (loc_of_shr_record mrs')) by lia.
  destruct (shr_fexp_pos loc_Exact Hm' H2) as [H3 H4].
  destruct (shr_fexp prec emax _ e' loc_Exact) as [mrs'' e'']. simpl in H3, H4.
  destruct (shr_m mrs'') as [| p | p]; try lia.
  destruct (e'' <=? emax - prec); [left; eauto | right; reflexivity].
Qed.

Lemma binary_round_pos (s : bool) (m : positive) (e : Z) :
  emin <= e -> positive_result s (binary_round prec emax s m e).
Proof.
  intros He. unfold binary_round.
  destruct (shl_align m e (fexp prec emax (Z.pos (digits2_pos m) + e))) as [mz ez] eqn:Hs.
  apply binary_round_aux_pos; [lia|].
  unfold shl_align in Hs.
  destruct (fexp prec emax (Z.pos (digits2_pos m) + e) - e) eqn:Hd;
    inversion Hs; subst; try lia.
  unfold fexp, SpecFloat.emin in *. unfold emin, SpecFloat.emin. lia.
Qed.


Lemma bounded_inv (m : positive) (e : Z) :
  bounded prec emax m e = true ->
  emin <= e <= emax - prec /\ Z.pos (digits2_pos m) <= prec /\
  (emin < e -> Z.pos (digits2_pos m) = prec).
Proof.
  unfold bounded, canonical_mantissa, fexp. fold emin.
  rewrite andb_true_iff, Z.eqb_eq, Z.leb_le. unfold emin, SpecFloat.emin, prec, emax.
  lia.
Qed.

Lemma positive_double_inv (x : number) :
  positive_double x ->
  x = S754_infinity false \/
  exists m e, x = S754_finite false m e /\ bounded prec emax m e = true.
Proof.
  intros [Hv Hp]. destruct x as [s | [] | | [] m e]; try discriminate.
  - left; reflexivity.
  - right; exists m, e; split; [reflexivity | exact Hv].
Qed.


Lemma pow2_pos (e : Z) : 0 <= e -> 0 < 2 ^ e.
Proof. intros; apply Z.pow_pos_nonneg; lia. Qed.

Lemma units_bounds (m : positive) (e : Z) :
  bounded prec emax m e = true ->
  0 < units (S754_finite false m e) < 2 ^ 2098.
Proof.
  intros Hb. destruct (bounded_inv _ _ Hb) as (He & Hd & _).
  pose proof (digits2_pos_bounds m) as Hm.
  unfold emin, SpecFloat.emin, prec, emax in *. cbn [units].
  assert (H0 : 0 < 2 ^ (e + 1074)) by (apply pow2_pos; lia).
  split; [apply Z.mul_pos_pos; lia|].
  assert (H1 : Z.pos m < 2 ^ 53).
  { apply Z.lt_le_trans with (2 ^ Z.pos (digits2_pos m)); [lia|].
    apply Z.pow_le_mono_r; lia. }
  assert (H2 : 2 ^ (e + 1074) <= 2 ^ 2045) by (apply Z.pow_le_mono_r; lia).
  replace (2 ^ 2098) with (2 ^ 53 * 2 ^ 2045) by (rewrite <- Z.pow_add_r by lia; reflexivity).
  apply Z.lt_le_trans with (2 ^ 53 * 2 ^ (e + 1074)).
  - apply Z.mul_lt_mono_pos_r; assumption.
  - apply Z.mul_le_mono_nonneg_l; [apply Z.pow_nonneg; lia | assumption].
Qed.

Lemma lt_finite_units (m1 m2 : positive) (e1 e2 : Z) :
  bounded prec emax m1 e1 = true -> bounded prec emax m2 e2 = true ->
  SFcompare (S754_finite false m1 e1) (S754_finite false m2 e2) =
    Some (units (S754_finite false m1 e1) ?= units (S754_finite false m2 e2)).
Proof.
  intros H1 H2.
  destruct (bounded_inv _ _ H1) as (He1 & Hd1 & Hn1).
  destruct (bounded_inv _ _ H2) as (He2 & Hd2 & Hn2).
  pose proof (digits2_pos_bounds m1) as Hm1.
  pose proof (digits2_pos_bounds m2) as Hm2.
  unfold emin, SpecFloat.emin, prec, emax in *.
  cbn [SFcompare units]. f_equal.
  assert (Hlt : forall (a b : positive) (ea eb : Z),
             -1074 <= ea -> ea < eb ->
             Z.pos (digits2_pos a) <= 53 -> Z.pos (digits2_pos b) = 53 ->
             Z.pos a * 2 ^ (ea + 1074) < Z.pos b * 2 ^ (eb + 1074)).
  { intros a b ea eb Hea Hab Hda Hdb.
    pose proof (digits2_pos_bounds a) as Ha. pose proof (digits2_pos_bounds b) as Hb.
    rewrite Hdb in Hb.
    assert (Ha' : Z.pos a < 2 ^ 53).
    { apply Z.lt_le_trans with (2 ^ Z.pos (digits2_pos a)); [lia|].
      apply Z.pow_le_mono_r; lia. }
    replace (eb + 1074) with ((ea + 1074) + (eb - ea)) by lia.
    rewrite (Z.pow_add_r 2 (ea + 1074) (eb - ea)) by lia.
    assert (HA : 0 < 2 ^ (ea + 1074)) by (apply pow2_pos; lia).
    assert (HB : 2 ^ 1 <= 2 ^ (eb - ea)) by (apply Z.pow_le_mono_r; lia).
    change (2 ^ 1) with 2 in HB. change (2 ^ (53 - 1)) with 4503599627370496 in Hb.
    change (2 ^ 53) with 9007199254740992 in *.
    rewrite (Z.mul_comm (2 ^ (ea + 1074))), Z.mul_assoc.
    apply Z.mul_lt_mono_pos_r; [assumption | nia]. }
  destruct (Z.compare_spec e1 e2) as [Heq | Hl | Hg].
  - subst e2. change (Pos.compare_cont Eq m1 m2) with (Z.pos m1 ?= Z.pos m2).
    assert (HA : 0 < 2 ^ (e1 + 1074)) by (apply pow2_pos; lia).
    apply Zmult_compare_compat_r. lia.
  - symmetry. apply Z.compare_lt_iff. apply Hlt; lia.
  - symmetry. apply Z.compare_gt_iff. apply Hlt; lia.
Qed.

Lemma compare_rank (x y : number) :
  positive_double x -> positive_double y ->
  SFcompare x y = Some (rank x ?= rank y).
Proof.
  intros Hx Hy.
  destruct (positive_double_inv Hx) as [-> | (m1 & e1 & -> & H1)];
    destruct (positive_double_inv Hy) as [-> | (m2 & e2 & -> & H2)].
  - reflexivity.
  - pose proof (units_bounds _ _ H2) as Hb. unfold rank.
    simpl SFcompare. f_equal. symmetry. apply Z.compare_gt_iff. lia.
  - pose proof (units_bounds _ _ H1) as Hb. unfold rank.
    simpl SFcompare. f_equal. symmetry. apply Z.compare_lt_iff. lia.
  - unfold rank. apply lt_finite_units; assumption.
Qed.

Lemma lt_rank (x y : number) :
  positive_double x -> positive_double y -> lt x y = (rank x <? rank y).
Proof.
  intros Hx Hy. unfold lt, SFltb, Z.ltb. rewrite (compare_rank Hx Hy).
  destruct (rank x ?= rank y); reflexivity.
Qed.

Lemma le_rank (x y : number) :
  positive_double x -> positive_double y -> le x y = (rank x <=? rank y).
Proof.
  intros Hx Hy. unfold le, SFleb, Z.leb. rewrite (compare_rank Hx Hy).
  destruct (rank x ?= rank y); reflexivity.
Qed.

Lemma iter_xO (m d : positive) : Z.pos (Pos.iter xO m d) = Z.pos m * 2 ^ Z.pos d.
Proof.
  induction d as [| d IH] using Pos.peano_ind.
  - simpl. lia.
  - rewrite Pos.iter_succ, Pos2Z.inj_xO, IH, Pos2Z.inj_succ, Z.pow_succ_r by lia. lia.
Qed.

Lemma shl_align_units (m : positive) (e e' : Z) :
  e' <= e -> -1074 <= e' ->
  Z.pos (fst (shl_align m e e')) * 2 ^ (e' + 1074) = Z.pos m * 2 ^ (e + 1074).
Proof.
  intros Hle He'. unfold shl_align.
  destruct (e' - e) as [| d | d] eqn:Hd; simpl fst; try (replace e' with e by lia; reflexivity); try lia.
  rewrite iter_xO. replace (e + 1074) with (Z.pos d + (e' + 1074)) by lia.
  rewrite (Z.pow_add_r 2 (Z.pos d) (e' + 1074)) by lia. lia.
Qed.

(** The sign of a difference of positive doubles is the sign of the exact
    difference: no positive difference rounds to zero. *)
Lemma sub_gt_zero (x y : number) :
  positive_double x -> positive_double y ->
  gt (sub y x) zero = lt x y.
Proof.
  intros Hx Hy. rewrite (lt_rank Hx Hy).
  destruct (positive_double_inv Hx) as [-> | (m1 & e1 & -> & H1)];
    destruct (positive_double_inv Hy) as [-> | (m2 & e2 & -> & H2)].
  - reflexivity.
  - pose proof (units_bounds _ _ H2) as Hb. unfold rank.
    transitivity false; [reflexivity | symmetry; apply Z.ltb_ge; lia].
  - pose proof (units_bounds _ _ H1) as Hb. unfold rank.
    transitivity true; [reflexivity | symmetry; apply Z.ltb_lt; lia].
  - destruct (bounded_inv _ _ H1) as (He1 & _). destruct (bounded_inv _ _ H2) as (He2 & _).
    unfold emin, SpecFloat.emin, prec, emax in He1, He2.
    unfold rank, units, sub, SFsub, cond_Zopp.
    set (ez := Z.min e2 e1).
    pose proof (@shl_align_units m1 e1 ez ltac:(lia) ltac:(lia)) as U1.
    pose proof (@shl_align_units m2 e2 ez ltac:(lia) ltac:(lia)) as U2.
    rewrite <- U1, <- U2.
    assert (HA : 0 < 2 ^ (ez + 1074)) by (apply pow2_pos; lia).
    set (M1 := Z.pos (fst (shl_align m1 e1 ez))) in *.
    set (M2 := Z.pos (fst (shl_align m2 e2 ez))) in *.
    assert (Hez : emin <= ez) by (unfold emin, SpecFloat.emin, prec, emax; lia).
    destruct (M2 - M1) as [| p | p] eqn:HD; unfold binary_normalize.
    + transitivity false; [reflexivity | symmetry; apply Z.ltb_ge; nia].
    + transitivity true.
      * destruct (binary_round_pos false p Hez) as [(m & e & ->) | ->]; reflexivity.
      * symmetry; apply Z.ltb_lt; nia.
    + transitivity false.
      * destruct (binary_round_pos true p Hez) as [(m & e & ->) | ->]; reflexivity.
      * symmetry; apply Z.ltb_ge; nia.
Qed.

Lemma eq_rank (x y : number) :
  positive_double x -> positive_double y -> strict_eq x y = (rank x =? rank y).
Proof.
  intros Hx Hy. unfold strict_eq, SFeqb. rewrite (compare_rank Hx Hy), Z.eqb_compare.
  reflexivity.
Qed.

Lemma Zdigits2_unique (m k : Z) :
  2 ^ (k - 1) <= m < 2 ^ k -> 0 < m -> Zdigits2 m = k.
Proof.
  intros Hk Hm. pose proof (Zdigits2_bounds Hm) as Hd.
  assert (Hd1 : 1 <= Zdigits2 m) by (destruct m; simpl in *; lia).
  assert (Hk1 : 1 <= k).
  { destruct (Z.le_gt_cases 1 k); [assumption|].
    rewrite (Z.pow_neg_r 2 (k - 1)) in Hk by lia.
    destruct (Z.le_gt_cases 0 k).
    - replace k with 0 in Hk by lia. simpl in Hk. lia.
    - rewrite (Z.pow_neg_r 2 k) in Hk by lia. lia. }
  destruct (Z.lt_trichotomy (Zdigits2 m) k) as [H | [H | H]]; [| assumption |].
  - assert (2 ^ Zdigits2 m <= 2 ^ (k - 1)) by (apply Z.pow_le_mono_r; lia). lia.
  - assert (2 ^ k <= 2 ^ (Zdigits2 m - 1)) by (apply Z.pow_le_mono_r; lia). lia.
Qed.

Lemma Zdigits2_shift (m n : Z) :
  0 < m -> 0 <= n < Zdigits2 m -> Zdigits2 (m / 2 ^ n) = Zdigits2 m - n.
Proof.
  intros Hm Hn. pose proof (Zdigits2_bounds Hm) as Hd.
  assert (Hp : 0 < 2 ^ n) by (apply pow2_pos; lia).
  assert (Hlo : 2 ^ (Zdigits2 m - n - 1) <= m / 2 ^ n).
  { apply Z.div_le_lower_bound; [assumption|].
    rewrite <- Z.pow_add_r by lia. replace (n + (Zdigits2 m - n - 1)) with (Zdigits2 m - 1) by lia. lia. }
  assert (Hhi : m / 2 ^ n < 2 ^ (Zdigits2 m - n)).
  { apply Z.div_lt_upper_bound; [assumption|].
    rewrite <- Z.pow_add_r by lia. replace (n + (Zdigits2 m - n)) with (Zdigits2 m) by lia. lia. }
  apply Zdigits2_unique; [lia|].
  assert (0 < 2 ^ (Zdigits2 m - n - 1)) by (apply pow2_pos; lia). lia.
Qed.

Lemma shr_fexp_value (m e : Z) (l : location) :
  0 < m ->
  let n := Z.max 0 (fexp prec emax (Zdigits2 m + e) - e) in
  shr_m (fst (shr_fexp prec emax m e l)) = m / 2 ^ n /\
  snd (shr_fexp prec emax m e l) = e + n.
Proof.
  intros Hm. cbv zeta. unfold shr_fexp, shr.
  destruct (fexp prec emax (Zdigits2 m + e) - e) as [| p | p] eqn:Hn; cbn [fst snd].
  - rewrite shr_m_of_loc. cbn. rewrite Z.div_1_r. lia.
  - rewrite iter_shr_m by (rewrite shr_m_of_loc; lia). rewrite shr_m_of_loc.
    rewrite Z.max_r by lia. split; reflexivity.
  - rewrite shr_m_of_loc. rewrite Z.max_l by lia. cbn. rewrite Z.div_1_r. lia.
Qed.

Lemma round_nearest_even_cases (m : Z) (l : location) :
  round_nearest_even m l = m \/ round_nearest_even m l = m + 1.
Proof. destruct l as [| []]; cbn; auto. destruct (Z.even m); auto. Qed.

(** Rounding a magnitude of at least 53 digits in the normal range: the
    mantissa is truncated to 53 digits and possibly incremented. *)
Lemma binary_round_aux_normal (mx ex : Z) (lx : location) :
  0 < mx -> prec <= Zdigits2 mx ->
  emin <= Zdigits2 mx + ex - prec ->
  (Zdigits2 mx + ex <= emax - 1 \/
   (Zdigits2 mx + ex = emax /\ mx / 2 ^ (Zdigits2 mx - prec) + 1 < 2 ^ prec)) ->
  let n := Zdigits2 mx - prec in
  let m1 := mx / 2 ^ n in
  exists m' e',
    binary_round_aux prec emax false mx ex lx = S754_finite false m' e' /\
    bounded prec emax m' e' = true /\
    Z.pos (digits2_pos m') = prec /\
    (Z.pos m' * 2 ^ (e' - (ex + n)) = m1 \/ Z.pos m' * 2 ^ (e' - (ex + n)) = m1 + 1) /\
    ex + n <= e' /\
    2 ^ (prec - 1) <= m1.
Proof.
  intros Hm Hd Hlo Hhi n m1. unfold binary_round_aux.
  destruct (shr_fexp_value ex lx Hm) as [H1 H2].
  assert (Hn : Z.max 0 (fexp prec emax (Zdigits2 mx + ex) - ex) = n).
  { unfold fexp, n. fold emin. lia. }
  rewrite Hn in H1, H2. fold m1 in H1.
  destruct (shr_fexp prec emax mx ex lx) as [mrs' e']. cbn [fst snd] in H1, H2.
  assert (Hm1d : Zdigits2 m1 = prec).
  { unfold m1. rewrite Zdigits2_shift by (unfold n, prec in *; lia). unfold n. lia. }
  assert (Hn0 : 0 <= n) by (unfold n; lia).
  assert (Hen : emin <= ex + n <= emax - prec) by (unfold n; lia).
  assert (Hhi' : ex + n <= emax - prec - 1 \/ m1 + 1 < 2 ^ prec)
    by (unfold m1, n; destruct Hhi as [Hhi | [Hhi1 Hhi2]]; [left; lia | right; exact Hhi2]).
  clear Hhi.
  assert (Hm1n : 0 <= m1) by (apply Z.div_pos; [lia | apply pow2_pos; lia]).
  clearbody m1. clearbody n.
  assert (Hm1 : 0 < m1).
  { destruct m1 as [| p | p]; cbn in Hm1d; unfold prec in Hm1d; lia. }
  clear Hm1n.
  pose proof (Zdigits2_bounds Hm1) as Hb1. rewrite Hm1d in Hb1.
  rewrite H1. subst e'.
  set (m2 := round_nearest_even m1 (loc_of_shr_record mrs')).
  assert (Hm2 : m2 = m1 \/ m2 = m1 + 1) by apply round_nearest_even_cases.
  assert (Hm2p : 0 < m2) by lia.
  destruct (shr_fexp_value (ex + n) loc_Exact Hm2p) as [H3 H4].
  destruct (shr_fexp prec emax m2 (ex + n) loc_Exact) as [mrs'' e'']. cbn [fst snd] in H3, H4.
  unfold emin, SpecFloat.emin, prec, emax in *.
  destruct (Z.eq_dec m2 (2 ^ 53)) as [Hc | Hc].
  - (* carry *)
    assert (Hd2 : Zdigits2 m2 = 54) by (rewrite Hc; reflexivity).
    rewrite Hd2 in H3, H4.
    assert (Hf : fexp 53 1024 (54 + (ex + n)) = ex + n + 1)
      by (unfold fexp, SpecFloat.emin; lia).
    rewrite Hf in H3, H4.
    replace (ex + n + 1 - (ex + n)) with 1 in H3, H4 by lia.
    change (Z.max 0 1) with 1 in H3, H4.
    rewrite Hc in H3. change (2 ^ 53 / 2 ^ 1) with (2 ^ 52) in H3.
    rewrite H3. change (2 ^ 52) with (Z.pos 4503599627370496).
    cbv iota beta.
    replace (e'' <=? 1024 - 53) with true by (symmetry; apply Z.leb_le; lia).
    exists 4503599627370496%positive, e''. split; [reflexivity|].
    split.
    { unfold bounded, canonical_mantissa, fexp, SpecFloat.emin.
      change (Z.pos (digits2_pos 4503599627370496)) with 53.
      apply andb_true_iff. split; [apply Z.eqb_eq | apply Z.leb_le]; lia. }
    split; [reflexivity|]. split; [| split; [lia | lia]].
    right. replace (e'' - (ex + n)) with 1 by lia. change (2 ^ 53) with 9007199254740992 in Hc. lia.
  - assert (Hd2 : Zdigits2 m2 = 53).
    { apply Zdigits2_unique; [| lia]. change (2 ^ (53 - 1)) with 4503599627370496 in *.
      change (2 ^ 53) with 9007199254740992 in *. lia. }
    rewrite Hd2 in H3, H4.
    assert (Hf : fexp 53 1024 (53 + (ex + n)) = ex + n)
      by (unfold fexp, SpecFloat.emin; lia).
    rewrite Hf in H3, H4.
    replace (ex + n - (ex + n)) with 0 in H3, H4 by lia.
    change (Z.max 0 0) with 0 in H3, H4.
    change (2 ^ 0) with 1 in H3. rewrite Z.div_1_r in H3. rewrite H3.
    destruct m2 as [| p2 | p2]; try lia.
    replace (e'' <=? 1024 - 53) with true by (symmetry; apply Z.leb_le; lia).
    exists p2, e''. split; [reflexivity|].
    split.
    { unfold bounded, canonical_mantissa, fexp, SpecFloat.emin.
      apply andb_true_iff. split; [apply Z.eqb_eq | apply Z.leb_le].
      - change (Z.pos (digits2_pos p2)) with (Zdigits2 (Z.pos p2)). rewrite Hd2. lia.
      - lia. }
    split; [exact Hd2|]. split; [| split; [lia | lia]].
    replace (e'' - (ex + n)) with 0 by lia. change (2 ^ 0) with 1. lia.
Qed.

Lemma digits2_iter_xO (p k : positive) :
  Z.pos (digits2_pos (Pos.iter xO p k)) = Z.pos (digits2_pos p) + Z.pos k.
Proof.
  induction k as [| k IH] using Pos.peano_ind.
  - cbn. lia.
  - rewrite Pos.iter_succ. cbn [digits2_pos]. rewrite Pos2Z.inj_succ, IH. lia.
Qed.

(** *** Every rounding yields a value of the format *)

Lemma Zdigits2_nonneg (m : Z) : 0 <= Zdigits2 m.
Proof. destruct m; cbn; lia. Qed.

Lemma Zdigits2_pos_ge (m : Z) : 0 < m -> 1 <= Zdigits2 m.
Proof. destruct m; cbn; lia. Qed.

Lemma shr_fexp_value0 (m e : Z) (l : location) :
  0 <= m ->
  let n := Z.max 0 (fexp prec emax (Zdigits2 m + e) - e) in
  shr_m (fst (shr_fexp prec emax m e l)) = m / 2 ^ n /\
  snd (shr_fexp prec emax m e l) = e + n.
Proof.
  intros Hm. destruct (Z.eq_dec m 0) as [-> | Hne].
  - cbv zeta. unfold shr_fexp, shr. cbn [Zdigits2 Z.add].
    destruct (fexp prec emax e - e) as [| p | p] eqn:Hn; cbn [fst snd].
    + rewrite shr_m_of_loc. cbn. lia.
    + rewrite iter_shr_m by (rewrite shr_m_of_loc; lia). rewrite shr_m_of_loc.
      rewrite Z.max_r by lia. split; reflexivity.
    + rewrite shr_m_of_loc. rewrite Z.max_l by lia. cbn. lia.
  - apply shr_fexp_value. lia.
Qed.

Lemma fexp_ge_emin (z : Z) : emin <= fexp prec emax z.
Proof. unfold fexp. fold emin. lia. Qed.

Lemma fexp_succ (z : Z) :
  fexp prec emax (z + 1) = fexp prec emax z \/
  fexp prec emax (z + 1) = fexp prec emax z + 1.
Proof. unfold fexp. lia. Qed.

Lemma fexp_mono (a b : Z) : a <= b -> fexp prec emax a <= fexp prec emax b.
Proof. unfold fexp. lia. Qed.

(** Rounding a magnitude that carries enough digits for its exponent. *)
Lemma binary_round_aux_valid (s : bool) (mx ex : Z) (lx : location) :
  0 <= mx -> ex <= fexp prec emax (Zdigits2 mx + ex) ->
  valid_binary prec emax (binary_round_aux prec emax s mx ex lx) = true.
Proof.
  intros Hm Hpre. unfold binary_round_aux.
  destruct (shr_fexp_value0 ex lx Hm) as [H1 H2].
  set (d := Zdigits2 mx) in *. set (f := fexp prec emax (d + ex)) in *.
  assert (Hn : Z.max 0 (f - ex) = f - ex) by lia.
  rewrite Hn in H1, H2. set (n := f - ex) in *.
  assert (Hn0 : 0 <= n) by (unfold n; lia).
  destruct (shr_fexp prec emax mx ex lx) as [mrs' e']. cbn [fst snd] in H1, H2.
  assert (He' : e' = f) by (unfold n in H2; lia). clear H2. subst e'.
  set (m1 := mx / 2 ^ n) in *.
  assert (Hm1 : 0 <= m1) by (apply Z.div_pos; [lia | apply pow2_pos; lia]).
  pose proof (fexp_ge_emin (d + ex)) as Hfmin. fold f in Hfmin.
  (* the truncated mantissa is canonical at exponent [f], or zero at [emin] *)
  assert (Hcan : (0 < m1 /\ fexp prec emax (Zdigits2 m1 + f) = f) \/
                 (m1 = 0 /\ f = emin)).
  { destruct (Z.lt_ge_cases n d) as [Hlt | Hge].
    - left. assert (Hmx : 0 < mx).
      { destruct (Z.eq_dec mx 0) as [E | E]; [| lia]. unfold d in Hlt. rewrite E in Hlt.
        cbn in Hlt. lia. }
      assert (Hd1 : Zdigits2 m1 = d - n) by (apply Zdigits2_shift; [assumption | fold d; lia]).
      split.
      + destruct (Z.eq_dec m1 0) as [E | E]; [| lia]. rewrite E in Hd1. cbn in Hd1. lia.
      + rewrite Hd1. replace (d - n + f) with (d + ex) by (unfold n; lia). reflexivity.
    - right. split.
      + destruct (Z.eq_dec mx 0) as [E | E].
        * unfold m1. rewrite E. apply Z.div_0_l. pose proof (pow2_pos Hn0). lia.
        * assert (Hmx : 0 < mx) by lia. pose proof (Zdigits2_bounds Hmx) as Hb. fold d in Hb.
          unfold m1. apply Z.div_small. split; [lia|].
          apply Z.lt_le_trans with (2 ^ d); [lia|]. apply Z.pow_le_mono_r; lia.
      + unfold n in Hge. unfold f, fexp in *. fold emin in *. unfold prec in *. lia. }
  rewrite H1.
  set (m2 := round_nearest_even m1 (loc_of_shr_record mrs')).
  assert (Hm2 : m2 = m1 \/ m2 = m1 + 1) by apply round_nearest_even_cases.
  assert (Hm2n : 0 <= m2) by lia.
  destruct (shr_fexp_value0 f loc_Exact Hm2n) as [H3 H4].
  destruct (shr_fexp prec emax m2 f loc_Exact) as [mrs'' e'']. cbn [fst snd] in H3, H4.
  set (n2 := Z.max 0 (fexp prec emax (Zdigits2 m2 + f) - f)) in *.
  assert (Hfin : forall m e, fexp prec emax (Z.pos (digits2_pos m) + e) = e ->
                             valid_binary prec emax
                               (if e <=? emax - prec then S754_finite s m e
                                else S754_infinity s) = true).
  { intros m e Hc. destruct (e <=? emax - prec) eqn:Ee; [| reflexivity].
    cbn [valid_binary]. unfold bounded, canonical_mantissa. rewrite Hc, Z.eqb_refl, Ee.
    reflexivity. }
  destruct (Z.eq_dec m2 0) as [E2 | E2].
  { rewrite E2 in H3. rewrite Z.div_0_l in H3 by (pose proof (pow2_pos (e := n2)); lia).
    rewrite H3. reflexivity. }
  assert (Hm2p : 0 < m2) by lia.
  assert (Hd2 : Zdigits2 m2 = Zdigits2 m1 \/
                (Zdigits2 m2 = Zdigits2 m1 + 1 /\ m2 = 2 ^ Zdigits2 m1)).
  { destruct Hm2 as [-> | ->]; [left; reflexivity|].
    destruct (Z.eq_dec m1 0) as [E | E].
    - rewrite E. right. split; reflexivity.
    - assert (Hm1p : 0 < m1) by lia. pose proof (Zdigits2_bounds Hm1p) as Hb.
      destruct (Z.eq_dec (m1 + 1) (2 ^ Zdigits2 m1)) as [Ec | Ec].
      + right. split; [| exact Ec]. apply Zdigits2_unique; [| lia].
        replace (Zdigits2 m1 + 1 - 1) with (Zdigits2 m1) by lia.
        rewrite Z.pow_add_r by (pose proof (Zdigits2_nonneg m1); lia). lia.
      + left. apply Zdigits2_unique; lia. }
  destruct Hcan as [[Hm1p Hc1] | [Hm10 Hfe]].
  - destruct Hd2 as [Hd2 | [Hd2 Hpow]].
    + assert (Hn2 : n2 = 0) by (unfold n2; rewrite Hd2, Hc1; lia).
      rewrite Hn2 in H3, H4. rewrite Z.div_1_r in H3. rewrite H3.
      destruct m2 as [| p2 | p2]; try lia.
      replace e'' with f by lia. apply Hfin.
      change (Z.pos (digits2_pos p2)) with (Zdigits2 (Z.pos p2)). rewrite Hd2. exact Hc1.
    + destruct (fexp_succ (Zdigits2 m1 + f)) as [Hs | Hs].
      * assert (Hn2 : n2 = 0).
        { unfold n2. rewrite Hd2. replace (Zdigits2 m1 + 1 + f) with (Zdigits2 m1 + f + 1) by lia.
          rewrite Hs, Hc1. lia. }
        rewrite Hn2 in H3, H4. rewrite Z.div_1_r in H3. rewrite H3.
        destruct m2 as [| p2 | p2]; try lia.
        replace e'' with f by lia. apply Hfin.
        change (Z.pos (digits2_pos p2)) with (Zdigits2 (Z.pos p2)). rewrite Hd2.
        replace (Zdigits2 m1 + 1 + f) with (Zdigits2 m1 + f + 1) by lia. rewrite Hs. exact Hc1.
      * assert (Hn2 : n2 = 1).
        { unfold n2. rewrite Hd2. replace (Zdigits2 m1 + 1 + f) with (Zdigits2 m1 + f + 1) by lia.
          rewrite Hs, Hc1. lia. }
        rewrite Hn2 in H3, H4. pose proof (Zdigits2_pos_ge Hm1p) as Hd1.
        assert (Hm3 : m2 / 2 ^ 1 = 2 ^ (Zdigits2 m1 - 1)).
        { rewrite Hpow. replace (Zdigits2 m1) with (1 + (Zdigits2 m1 - 1)) at 1 by lia.
          rewrite Z.pow_add_r by lia. rewrite Z.mul_comm. apply Z.div_mul. cbn. lia. }
        rewrite Hm3 in H3. rewrite H3.
        assert (Hp3 : 0 < 2 ^ (Zdigits2 m1 - 1)) by (apply pow2_pos; lia).
        destruct (2 ^ (Zdigits2 m1 - 1)) as [| p3 | p3] eqn:E3; try lia.
        replace e'' with (f + 1) by lia. apply Hfin.
        change (Z.pos (digits2_pos p3)) with (Zdigits2 (Z.pos p3)). rewrite <- E3.
        assert (Hd3 : Zdigits2 (2 ^ (Zdigits2 m1 - 1)) = Zdigits2 m1).
        { apply Zdigits2_unique; [| lia]. split; [lia|].
          apply Z.pow_lt_mono_r; lia. }
        rewrite Hd3. replace (Zdigits2 m1 + (f + 1)) with (Zdigits2 m1 + f + 1) by lia.
        rewrite Hs, Hc1. reflexivity.
  - (* the value was below the smallest subnormal and rounds up to it *)
    assert (Em2 : m2 = 1) by lia.
    assert (Hc : fexp prec emax (1 + f) = f).
    { rewrite Hfe. reflexivity. }
    assert (Hn2 : n2 = 0).
    { unfold n2. rewrite Em2. cbn [Zdigits2 digits2_pos]. rewrite Hc. lia. }
    rewrite Hn2, Em2 in H3. rewrite Hn2 in H4. cbn in H3. rewrite H3.
    replace e'' with f by lia. apply Hfin. cbn [digits2_pos]. exact Hc.
Qed.

Lemma binary_round_valid (s : bool) (m : positive) (e : Z) :
  valid_binary prec emax (binary_round prec emax s m e) = true.
Proof.
  unfold binary_round.
  set (d := Z.pos (digits2_pos m)). set (f := fexp prec emax (d + e)).
  destruct (shl_align m e f) as [mz ez] eqn:Es.
  apply binary_round_aux_valid; [lia|].
  unfold shl_align in Es.
  destruct (f - e) as [| k | k] eqn:Ek; inversion Es; subst mz ez.
  - change (Zdigits2 (Z.pos m)) with d. fold f. lia.
  - change (Zdigits2 (Z.pos m)) with d. fold f. lia.
  - cbn [Zdigits2]. rewrite digits2_iter_xO. fold d.
    replace (d + Z.pos k + f) with (d + e) by lia. fold f. lia.
Qed.

Lemma of_Z_valid (n : Z) : valid_binary prec emax (of_Z n) = true.
Proof.
  unfold of_Z, binary_normalize. destruct n; [reflexivity | |]; apply binary_round_valid.
Qed.

(** The quotient of two positive integers scaled by powers of two. *)
Lemma div_valid (m1 m2 : positive) (e1 e2 : Z) :
  valid_binary prec emax
    (div (S754_finite false m1 e1) (S754_finite false m2 e2)) = true.
Proof.
  unfold div, SFdiv, SFdiv_core_binary. cbn [xorb Zdigits2].
  set (d1 := Z.pos (digits2_pos m1)). set (d2 := Z.pos (digits2_pos m2)).
  set (z := d1 + e1 - (d2 + e2)).
  set (e' := Z.min (fexp prec emax z) (e1 - e2)).
  set (s := e1 - e2 - e').
  assert (Hs : 0 <= s) by (unfold s, e'; lia).
  assert (Hse : s = e1 - e2 - e') by reflexivity.
  clearbody s.
  set (N := match s with
            | 0 => Z.pos m1
            | Z.pos _ => Z.shiftl (Z.pos m1) s
            | Z.neg _ => 0
            end).
  assert (HN : N = Z.pos m1 * 2 ^ s).
  { unfold N. destruct s as [| p | p]; try lia.
    rewrite Z.shiftl_mul_pow2 by lia. reflexivity. }
  clearbody N.
  pose proof (Z_div_mod N (Z.pos m2) ltac:(lia)) as Hdm.
  destruct (Z.div_eucl N (Z.pos m2)) as [q r]. destruct Hdm as [HNq Hr].
  pose proof (digits2_pos_bounds m1) as B1. pose proof (digits2_pos_bounds m2) as B2.
  fold d1 in B1. fold d2 in B2.
  assert (Hd1 : 1 <= d1) by (unfold d1; lia). assert (Hd2 : 1 <= d2) by (unfold d2; lia).
  assert (Hp : 0 < 2 ^ s) by (apply pow2_pos; lia).
  assert (Hq0 : 0 <= q) by nia.
  apply binary_round_aux_valid; [exact Hq0|].
  assert (He'z : e' <= fexp prec emax z) by (unfold e'; lia).
  destruct (Z.eq_dec q 0) as [-> | Hqne].
  - (* the quotient is below one unit of [2^e'] *)
    cbn [Zdigits2 Z.add].
    assert (Hlt : N < Z.pos m2) by lia.
    assert (Hsz : s <= d2 - d1).
    { destruct (Z.le_gt_cases s (d2 - d1)) as [| Hgt]; [assumption|].
      assert (2 ^ d2 <= 2 ^ (d1 - 1 + s)) by (apply Z.pow_le_mono_r; lia).
      rewrite Z.pow_add_r in H by lia. nia. }
    assert (Hze : z <= e') by (unfold z in *; lia).
    unfold fexp in *. fold emin in *. unfold prec in *. lia.
  - assert (Hq : 0 < q) by lia.
    pose proof (Zdigits2_bounds Hq) as Bq.
    assert (Hdq : z - e' <= Zdigits2 q).
    { replace (z - e') with (d1 - d2 + s) by (unfold z; lia).
      destruct (Z.le_gt_cases (d1 - d2 + s) (Zdigits2 q)) as [| Hgt]; [assumption|].
      exfalso.
      pose proof (Zdigits2_pos_ge Hq) as Hdq1.
      assert (H2q : 2 ^ Zdigits2 q <= 2 ^ (d1 - d2 + s - 1)) by (apply Z.pow_le_mono_r; lia).
      assert (Hq1 : q + 1 <= 2 ^ (d1 - d2 + s - 1)) by lia.
      assert (HNlt : N < Z.pos m2 * (q + 1)) by lia.
      assert (HNge : 2 ^ (d1 - 1) * 2 ^ s <= N) by (rewrite HN; apply Z.mul_le_mono_nonneg_r; lia).
      assert (Hm2 : Z.pos m2 * (q + 1) < 2 ^ d2 * 2 ^ (d1 - d2 + s - 1)).
      { apply Z.lt_le_trans with (2 ^ d2 * (q + 1)).
        - apply Z.mul_lt_mono_pos_r; lia.
        - apply Z.mul_le_mono_nonneg_l; [| exact Hq1]. apply Z.pow_nonneg. lia. }
      rewrite <- !Z.pow_add_r in * by lia.
      replace (d2 + (d1 - d2 + s - 1)) with (d1 - 1 + s) in Hm2 by lia. lia. }
    apply Z.le_trans with (fexp prec emax z); [exact He'z|].
    apply fexp_mono. lia.
Qed.

Lemma opp_valid (x : number) :
  valid_binary prec emax x = true -> valid_binary prec emax (SFopp x) = true.
Proof. destruct x; auto. Qed.

Lemma of_scientific_valid (n e : Z) :
  valid_binary prec emax (of_scientific n e) = true.
Proof.
  unfold of_scientific. destruct (0 <=? e); [apply of_Z_valid|].
  destruct n; try reflexivity. apply div_valid.
Qed.

Lemma unsigned_literal_valid (s : jsstring) :
  valid_binary prec emax (unsigned_literal s) = true.
Proof.
  unfold unsigned_literal. destruct (startsWith s (str "Infinity")); [reflexivity|].
  destruct (span_digits s) as [int_ds rest].
  destruct (match rest with
            | 46%N :: t => span_digits t
            | _ => ([], rest)
            end) as [frac_ds rest'].
  destruct (int_ds ++ frac_ds); [reflexivity | apply of_scientific_valid].
Qed.

Lemma parseFloat_valid (s : jsstring) :
  valid_binary prec emax (parseFloat s) = true.
Proof.
  unfold parseFloat. destruct (trimStart s) as [| c t]; [apply unsigned_literal_valid|].
  destruct c as [| p]; [apply unsigned_literal_valid|].
  do 6 (destruct p as [p | p |]; try apply unsigned_literal_valid);
    try apply opp_valid; apply unsigned_literal_valid.
Qed.

(** *** Sorting by a key, largest first: [l.sort((a, b) => key(b) - key(a))] *)

Section SortByKey.
Variable A : Type.
Variable key : A -> number.

Local Abbreviation descending := (descending key).
Local Abbreviation keys_positive := (keys_positive key).
Local Abbreviation before := (before key).


Lemma insert_perm (x : A) (l : list A) :
  Permutation (Array.insert descending x l) (x :: l).
Proof.
  induction l as [| y l IH]; simpl; [reflexivity|].
  destruct (Array.after descending x y); [| reflexivity].
  rewrite IH. apply perm_swap.
Qed.

Lemma sort_perm (l : list A) : Permutation (Array.sort descending l) l.
Proof.
  induction l as [| x l IH]; simpl; [reflexivity|].
  rewrite insert_perm. constructor. exact IH.
Qed.

Lemma sort_length (l : list A) :
  List.length (Array.sort descending l) = List.length l.
Proof. apply Permutation_length, sort_perm. Qed.

Lemma after_lt (x y : A) :
  positive_double (key x) -> positive_double (key y) ->
  Array.after descending x y = lt (key x) (key y).
Proof. intros Hx Hy. apply sub_gt_zero; assumption. Qed.

Lemma keys_positive_insert (x : A) (l : list A) :
  keys_positive (x :: l) -> keys_positive (Array.insert descending x l).
Proof.
  unfold keys_positive. intros H.
  eapply Permutation_Forall; [| exact H]. symmetry. apply insert_perm.
Qed.

Lemma keys_positive_sort (l : list A) :
  keys_positive l -> keys_positive (Array.sort descending l).
Proof.
  unfold keys_positive. intros H.
  eapply Permutation_Forall; [| exact H]. symmetry. apply sort_perm.
Qed.


Lemma insert_sorted (x : A) (l : list A) :
  keys_positive (x :: l) ->
  StronglySorted before l -> StronglySorted before (Array.insert descending x l).
Proof.
  intros Hpos Hs. induction Hs as [| y l Hs IH Hy]; simpl.
  - repeat constructor.
  - inversion Hpos as [| ? ? Hx Hyl]; subst. inversion Hyl as [| ? ? Hky Hl]; subst.
    rewrite (after_lt Hx Hky), (lt_rank Hx Hky).
    destruct (rank (key x) <? rank (key y)) eqn:Hc.
    + apply Z.ltb_lt in Hc. constructor.
      * apply IH. constructor; assumption.
      * eapply Permutation_Forall; [symmetry; apply insert_perm|].
        constructor; [| exact Hy].
        unfold before. rewrite (le_rank Hx Hky). apply Z.leb_le. lia.
    + apply Z.ltb_ge in Hc. constructor; [constructor; assumption|].
      constructor.
      * unfold before. rewrite (le_rank Hky Hx). apply Z.leb_le. lia.
      * rewrite Forall_forall in Hy, Hl |- *. intros z Hz.
        specialize (Hy z Hz). specialize (Hl z Hz). unfold before in *.
        rewrite (le_rank Hl Hky) in Hy. apply Z.leb_le in Hy.
        rewrite (le_rank Hl Hx). apply Z.leb_le. lia.
Qed.

Lemma sort_sorted (l : list A) :
  keys_positive l -> StronglySorted before (Array.sort descending l).
Proof.
  induction l as [| x l IH]; intros Hpos; simpl; [constructor|].
  inversion Hpos; subst. apply insert_sorted.
  - constructor; [assumption|]. apply keys_positive_sort; assumption.
  - apply IH; assumption.
Qed.

(** Elements with the same key are never moved past one another. *)
Lemma insert_stable (c : number) (x : A) (l : list A) :
  positive_double c -> keys_positive (x :: l) ->
  filter (fun a => strict_eq (key a) c) (Array.insert descending x l) =
  filter (fun a => strict_eq (key a) c) (x :: l).
Proof.
  intros Hc Hpos. induction l as [| y l IH]; [reflexivity|].
  inversion Hpos as [| ? ? Hx Hyl]; subst. inversion Hyl as [| ? ? Hky Hl]; subst.
  cbn [Array.insert]. rewrite (after_lt Hx Hky), (lt_rank Hx Hky).
  destruct (rank (key x) <? rank (key y)) eqn:Hlt; [| reflexivity].
  apply Z.ltb_lt in Hlt. cbn [filter]. rewrite IH by (constructor; assumption).
  cbn [filter]. rewrite (eq_rank Hx Hc), (eq_rank Hky Hc).
  destruct (rank (key x) =? rank c) eqn:E1; destruct (rank (key y) =? rank c) eqn:E2;
    try reflexivity.
  apply Z.eqb_eq in E1, E2. lia.
Qed.

Lemma sort_stable (c : number) (l : list A) :
  positive_double c -> keys_positive l ->
  filter (fun a => strict_eq (key a) c) (Array.sort descending l) =
  filter (fun a => strict_eq (key a) c) l.
Proof.
  intros Hc. induction l as [| x l IH]; intros Hpos; [reflexivity|].
  inversion Hpos; subst. cbn [Array.sort fold_right].
  change (fold_right (Array.insert descending) [] l) with (Array.sort descending l).
  rewrite insert_stable; [| assumption |].
  - cbn [filter]. rewrite IH by assumption. reflexivity.
  - constructor; [assumption|]. apply keys_positive_sort; assumption.
Qed.

End SortByKey.

(** *** The matcher consumes a prefix of its input *)

Lemma exec_sound (r : regex) :
  forall (s : jsstring) (k : jsstring -> option jsstring) (rest : jsstring),
    exec r s k = Some rest ->
    exists pre s1, s = pre ++ s1 /\ k s1 = Some rest.
Proof.
  induction r as [| c | | r1 IH1 r2 IH2 | r1 IH1 r2 IH2 | r1 IH1 | r1 IH1];
    intros s k rest H; cbn [exec] in H.
  - exists [], s. auto.
  - destruct s as [| a s']; [discriminate|].
    destruct (N.eqb a c); [| discriminate]. exists [a], s'. auto.
  - destruct s as [| a s']; [discriminate|].
    destruct (is_digit a); [| discriminate]. exists [a], s'. auto.
  - apply IH1 in H. destruct H as (pre1 & s1 & -> & H).
    apply IH2 in H. destruct H as (pre2 & s2 & -> & H).
    exists (pre1 ++ pre2), s2. rewrite app_assoc. auto.
  - destruct (exec r1 s k) eqn:E1.
    + inversion H; subst. apply IH1 in E1. exact E1.
    + apply IH2 in H. exact H.
  - destruct (exec r1 s k) eqn:E1.
    + inversion H; subst. apply IH1 in E1. exact E1.
    + exists [], s. auto.
  - revert H. generalize (List.length s) as fuel. intros fuel. revert s.
    induction fuel as [| fuel IHf]; intros s H.
    + exists [], s. auto.
    + match type of H with
      | match ?e with _ => _ end = _ => destruct e eqn:E1
      end.
      * inversion H; subst. apply IH1 in E1. destruct E1 as (pre1 & s1 & -> & E1).
        destruct (List.length s1 <? List.length (pre1 ++ s1))%nat; [| discriminate].
        apply IHf in E1. destruct E1 as (pre2 & s2 & -> & E1).
        exists (pre1 ++ pre2), s2. rewrite app_assoc. auto.
      * exists [], s. auto.
Qed.

Lemma exec_prefix (r : regex) (s rest : jsstring) :
  exec r s Some = Some rest ->
  s = firstn (List.length s - List.length rest) s ++ rest.
Proof.
  intros H. apply exec_sound in H. destruct H as (pre & s1 & -> & H).
  inversion H; subst. rewrite length_app.
  replace (List.length pre + List.length rest - List.length rest)%nat
    with (List.length pre + 0)%nat by lia.
  rewrite firstn_app_2. simpl. rewrite app_nil_r. reflexivity.
Qed.


Lemma matchAll_from_spec (r : regex) (fuel : nat) :
  forall (pos : nat) (s : jsstring),
    Forall (fun pt => (pos <= fst pt)%nat /\
                      occurs_at s (fst pt - pos, snd pt)%nat)
           (matchAll_from fuel r pos s)
    /\ StronglySorted precedes (matchAll_from fuel r pos s).
Proof.
  induction fuel as [| fuel IH]; intros pos s; cbn [matchAll_from].
  - split; constructor.
  - assert (Hskip : forall a s',
               s = a :: s' ->
               Forall (fun pt => (S pos <= fst pt)%nat /\
                                 occurs_at s (fst pt - pos, snd pt)%nat)
                      (matchAll_from fuel r (S pos) s')).
    { intros a s' ->. destruct (IH (S pos) s') as [HF _].
      eapply Forall_impl; [| exact HF]. intros [p t] [Hp Ho]. cbn [fst snd] in *.
      split; [assumption|]. unfold occurs_at in *. cbn [fst snd] in *.
      replace (p - pos)%nat with (S (p - S pos)) by lia. exact Ho. }
    destruct (exec r s Some) as [rest |] eqn:E.
    + pose proof (exec_prefix _ _ E) as Hs.
      set (n := (List.length s - List.length rest)%nat) in *.
      assert (Hn : List.length (firstn n s) = n).
      { apply firstn_length_le. unfold n. lia. }
      assert (Hhead : occurs_at s (pos - pos, firstn n s)%nat).
      { unfold occurs_at. cbn [fst snd]. rewrite Nat.sub_diag, Hn. reflexivity. }
      destruct n as [| n'] eqn:En.
      * destruct s as [| a s'].
        -- split; [repeat constructor; assumption|].
           repeat constructor.
        -- pose proof (Hskip a s' eq_refl) as HF. destruct (IH (S pos) s') as [_ HS].
           split.
           ++ constructor; [split; [cbn; lia | exact Hhead]|].
              eapply Forall_impl; [| exact HF]. cbn. intros pt [? ?]. split; [lia | assumption].
           ++ constructor; [exact HS|].
              eapply Forall_impl; [| exact HF]. intros [p t] [Hp _].
              unfold precedes; cbn [fst snd firstn List.length] in *. lia.
      * destruct (IH (pos + S n')%nat rest) as [HF HS].
        assert (HF' : Forall (fun pt => (pos + S n' <= fst pt)%nat /\
                                        occurs_at s (fst pt - pos, snd pt)%nat)
                             (matchAll_from fuel r (pos + S n') rest)).
        { eapply Forall_impl; [| exact HF]. intros [p t] [Hp Ho]. cbn [fst snd] in *.
          split; [assumption|]. unfold occurs_at in *. cbn [fst snd] in *.
          rewrite Hs. replace (p - pos)%nat with (List.length (firstn (S n') s) + (p - (pos + S n')))%nat
            by (rewrite Hn; lia).
          rewrite skipn_app, skipn_all2 by lia.
          replace (List.length (firstn (S n') s) + (p - (pos + S n')) - List.length (firstn (S n') s))%nat
            with (p - (pos + S n'))%nat by lia.
          exact Ho. }
        split.
        -- constructor; [split; [cbn; lia | exact Hhead]|].
           eapply Forall_impl; [| exact HF']. cbn. intros pt [? ?]. split; [lia | assumption].
        -- constructor; [exact HS|].
           eapply Forall_impl; [| exact HF']. intros [p t] [Hp _].
           unfold precedes; cbn [fst snd] in *. rewrite Hn. lia.
    + destruct s as [| a s']; [split; constructor|].
      pose proof (Hskip a s' eq_refl) as HF. destruct (IH (S pos) s') as [_ HS].
      split; [| exact HS].
      eapply Forall_impl; [| exact HF]. cbn. intros pt [? ?]. split; [lia | assumption].
Qed.

Lemma matchAll_occurs (r : regex) (text : jsstring) :
  Forall (occurs_at text) (matchAll r text).
Proof.
  destruct (matchAll_from_spec r (S (List.length text)) 0 text) as [HF _].
  eapply Forall_impl; [| exact HF]. intros [p t] [_ Ho].
  unfold occurs_at in *. cbn [fst snd] in *. rewrite Nat.sub_0_r in Ho. exact Ho.
Qed.

Lemma matchAll_ordered (r : regex) (text : jsstring) :
  StronglySorted precedes (matchAll r text).
Proof. apply matchAll_from_spec. Qed.

(** *** Substring search *)

Lemma startsWith_app (pat post : jsstring) : startsWith (pat ++ post) pat = true.
Proof. induction pat as [| p pat IH]; simpl; [reflexivity|]. rewrite N.eqb_refl. exact IH. Qed.

Lemma startsWith_inv (s pat : jsstring) :
  startsWith s pat = true -> exists post, s = pat ++ post.
Proof.
  revert s. induction pat as [| p pat IH]; intros s H.
  - exists s. reflexivity.
  - destruct s as [| c s]; [discriminate|]. simpl in H.
    apply andb_true_iff in H. destruct H as [Hc H]. apply N.eqb_eq in Hc. subst c.
    destruct (IH _ H) as [post ->]. exists post. reflexivity.
Qed.

Lemma find_occurrence (s pat : jsstring) (i : nat) :
  find s pat = Some i ->
  exists pre post, s = pre ++ pat ++ post /\ List.length pre = i.
Proof.
  revert i. induction s as [| c s IH]; intros i H; simpl in H.
  - destruct (startsWith [] pat) eqn:E; [| discriminate]. inversion H; subst.
    apply startsWith_inv in E. destruct E as [post E]. exists [], post. auto.
  - destruct (startsWith (c :: s) pat) eqn:E.
    + inversion H; subst. apply startsWith_inv in E. destruct E as [post E].
      exists [], post. auto.
    + destruct (find s pat) as [j |] eqn:F; [| discriminate]. inversion H; subst.
      destruct (IH j eq_refl) as (pre & post & -> & Hl).
      exists (c :: pre), post. simpl. auto.
Qed.

Lemma find_complete (pre pat post : jsstring) :
  exists i, find (pre ++ pat ++ post) pat = Some i.
Proof.
  induction pre as [| c pre IH]; simpl.
  - assert (E : startsWith (pat ++ post) pat = true) by apply startsWith_app.
    destruct (pat ++ post); simpl; rewrite E; eauto.
  - destruct (startsWith (c :: pre ++ pat ++ post) pat); [eauto|].
    destruct IH as [i ->]. simpl. eauto.
Qed.

Lemma includes_iff (s pat : jsstring) :
  includes s pat = true <-> exists pre post, s = pre ++ pat ++ post.
Proof.
  unfold includes. split.
  - destruct (find s pat) as [i |] eqn:F; [| discriminate]. intros _.
    destruct (find_occurrence _ _ F) as (pre & post & -> & _). eauto.
  - intros (pre & post & ->). destruct (find_complete pre pat post) as [i ->]. reflexivity.
Qed.

Lemma find_le (s pat : jsstring) (i : nat) :
  find s pat = Some i -> (i <= List.length s)%nat.
Proof.
  intros H. destruct (find_occurrence _ _ H) as (pre & post & -> & <-).
  rewrite length_app. lia.
Qed.

Lemma indexOf_find (s pat : jsstring) :
  (indexOf s pat =? -1) = match find s pat with Some _ => false | None => true end.
Proof.
  unfold indexOf. destruct (find s pat); [| reflexivity]. apply Z.eqb_neq. lia.
Qed.


Lemma slice_window (text : jsstring) (i : nat) :
  (i <= List.length text)%nat ->
  slice text (Z.max 0 (Z.of_nat i - 100))
        (Z.min (JSString.length text) (Z.of_nat i + 100)) = window text i.
Proof.
  intros Hi. unfold slice, window, JSString.length.
  set (len := List.length text) in *.
  assert (Ha : (Z.max 0 (Z.of_nat i - 100) <? 0) = false) by (apply Z.ltb_ge; lia).
  assert (Hb : (Z.min (Z.of_nat len) (Z.of_nat i + 100) <? 0) = false) by (apply Z.ltb_ge; lia).
  rewrite Ha, Hb.
  replace (Z.min (Z.max 0 (Z.of_nat i - 100)) (Z.of_nat len)) with (Z.of_nat (i - 100)) by lia.
  replace (Z.min (Z.min (Z.of_nat len) (Z.of_nat i + 100)) (Z.of_nat len))
    with (Z.of_nat (Nat.min len (i + 100))) by lia.
  rewrite Nat2Z.id, <- Nat2Z.inj_sub, Nat2Z.id by lia.
  rewrite firstn_skipn_comm.
  replace (i - 100 + (Nat.min len (i + 100) - (i - 100)))%nat with (Nat.min len (i + 100)) by lia.
  f_equal. destruct (Nat.le_ge_cases len (i + 100)) as [H | H].
  - rewrite Nat.min_l by assumption. unfold len. rewrite !firstn_all2 by lia. reflexivity.
  - rewrite Nat.min_r by assumption. reflexivity.
Qed.

(** *** Scores *)


Lemma fold_boost (p : jsstring -> bool) (keywords : list jsstring) :
  forall c0 : number,
    fold_left (fun confidence keyword =>
                 if p keyword then add confidence n0_2 else confidence)
              keywords c0 =
    Nat.iter (List.length (filter p keywords)) (fun c => add c n0_2) c0.
Proof.
  induction keywords as [| kw keywords IH]; intros c0; [reflexivity|].
  cbn [fold_left filter]. rewrite IH. destruct (p kw); [| reflexivity].
  cbn [List.length]. rewrite Nat.iter_succ_r. reflexivity.
Qed.

Lemma confidence_levels (k : nat) :
  (k <= 10)%nat ->
  positive_double (Math_min (boost k) n1) /\
  le (Math_min (boost k) n1) n1 = true /\
  le n0_3 (Math_min (boost k) n1) = true /\
  le zero (Math_min (boost k) n1) = true /\
  ((1 <= k)%nat -> lt n0_3 (Math_min (boost k) n1) = true).
Proof.
  intros Hk.
  do 11 (destruct k as [| k];
         [repeat split; try (vm_compute; reflexivity); intros; try lia;
          vm_compute; reflexivity |]).
  lia.
Qed.

Lemma boost_table :
  map (fun k => Math_min (boost k) n1) [0; 1; 2; 3; 4]%nat =
  [ of_decimal 3 1; of_decimal 5 1; of_decimal 7 1;
    of_decimal 8999999999999999 16; of_Z 1 ]
  /\ forall k, (4 <= k <= 10)%nat -> Math_min (boost k) n1 = of_Z 1.
Proof.
  split; [vm_compute; reflexivity|]. intros k Hk.
  do 4 (destruct k as [| k]; [lia|]).
  do 7 (destruct k as [| k]; [vm_compute; reflexivity|]). lia.
Qed.

Section Scorer.
Context {RT : Runtime}.


Lemma keywordHits_le (text : jsstring) (num : number) :
  (keywordHits text num <= 10)%nat.
Proof.
  unfold keywordHits. destruct (find text (toLocaleString num)); [| lia].
  apply (filter_length_le _ revenueKeywords).
Qed.

Lemma scoreNumber_value (text : jsstring) (num : number) :
  Scored.value (scoreNumber text num) = num.
Proof. reflexivity. Qed.

Lemma scoreNumber_confidence (text : jsstring) (num : number) :
  Scored.confidence (scoreNumber text num) =
  Math_min (boost (keywordHits text num)) n1.
Proof.
  unfold scoreNumber, keywordHits, contextOf. cbn [Scored.confidence].
  rewrite indexOf_find. unfold indexOf.
  destruct (find text (toLocaleString num)) as [i |] eqn:F; cbn [negb]; [| reflexivity].
  rewrite slice_window by (eapply find_le; exact F).
  rewrite fold_boost. reflexivity.
Qed.

Lemma scored_positive (text : jsstring) (numbers : list number) :
  keys_positive Scored.confidence (map (scoreNumber text) numbers).
Proof.
  unfold keys_positive. rewrite Forall_map. apply Forall_forall. intros num _.
  rewrite scoreNumber_confidence. apply confidence_levels, keywordHits_le.
Qed.

End Scorer.

(** ** The orchestrator on a failing extractor *)

Section Orchestrator.
Context {RT : Runtime} {File Worker : Type} {OCR : Tesseract File Worker}.

(** The extractor asks for one worker, one recognition and one shutdown at
    most, in this order, whatever the engine does. *)
Lemma extractTextFromImage_calls (imageFile : File) :
  let cs := fst (extractTextFromImage imageFile) in
  cs = [CreateWorker] \/ cs = [CreateWorker; Recognize] \/
  cs = [CreateWorker; Recognize; Terminate].
Proof.
  unfold extractTextFromImage, perform, bind, tryCatch, throw, ret.
  destruct createWorker as [w | e]; simpl; auto.
  destruct (recognize w imageFile) as [t | e]; simpl; auto.
  destruct (terminate w) as [[] | e]; simpl; auto.
Qed.

Lemma analyze_failure (imageFile : File) (cs : list call) (error : jsstring) :
  extractTextFromImage imageFile = (cs, Throws error) ->
  analyzeRevenueScreenshot imageFile = (cs, Returns fallbackAnalysis).
Proof.
  intros Hx. unfold analyzeRevenueScreenshot. rewrite Hx. simpl.
  rewrite app_nil_r. reflexivity.
Qed.

(** C1: when the text extractor throws, whatever the image and whatever the
    cause, the analysis returns (it does not throw) the fixed result
    totalRevenue 45680, currency AED, thisMonth 12450, lastMonth 10200,
    growth 22, confidence 0.1, rawText "OCR failed", no detected numbers,
    tagged [mock] (the tag of the fallback); the only engine calls made are
    those of the one failed extraction, none is repeated. *)
Theorem fallback_on_extractor_failure
        (imageFile : File) (cs : list call) (error : jsstring) :
  extractTextFromImage imageFile = (cs, Throws error) ->
  analyzeRevenueScreenshot imageFile =
    (cs, Returns
           {| totalRevenue := of_Z 45680;
              currency := str "AED";
              thisMonth := of_Z 12450;
              lastMonth := of_Z 10200;
              growth := of_Z 22;
              confidence := of_decimal 1 1;
              rawText := str "OCR failed";
              detectedNumbers := [];
              analysisMethod := mock |})
  /\ NoDup cs.
Proof.
  intros Hx. split.
  - apply analyze_failure with (error := error), Hx.
  - pose proof (extractTextFromImage_calls imageFile) as Hc.
    rewrite Hx in Hc. simpl in Hc.
    destruct Hc as [-> | [-> | ->]];
      repeat (constructor; [simpl; intuition discriminate|]); constructor.
Qed.

End Orchestrator.

Lemma fallback_on_extractor_failure_witness :
  @extractTextFromImage jsstring unit Engines.unreadable (str "receipt") =
    ([CreateWorker; Recognize], Throws (str "Failed to extract text from image"))
  /\ @analyzeRevenueScreenshot EnUS.runtime jsstring unit Engines.unreadable (str "receipt") =
       ([CreateWorker; Recognize], Returns fallbackAnalysis).
Proof.
  split; [reflexivity|].
  apply (@fallback_on_extractor_failure EnUS.runtime jsstring unit
           Engines.unreadable (str "receipt") _ _ eq_refl).
Defined.

(** ** The revenue scorer *)

Lemma strict_eq_positive (x c : number) :
  positive_double x -> strict_eq x c = true -> c = x.
Proof.
  intros Hx. destruct (positive_double_inv Hx) as [-> | (m & e & -> & _)].
  - destruct c as [[] | [] | | [] ? ?]; try discriminate. reflexivity.
  - destruct c as [[] | [] | | [] m' e']; try discriminate.
    unfold strict_eq, SFeqb. cbn [SFcompare].
    destruct (Z.compare_spec e e') as [-> | |]; try discriminate.
    change (Pos.compare_cont Eq m m') with (m ?= m')%positive.
    destruct (Pos.compare_spec m m') as [-> | |]; try discriminate. reflexivity.
Qed.

Section SortStable.
Variable A : Type.
Variable key : A -> number.

(** Whatever the value [c], the elements whose key equals [c] come out of
    the sort in the order they went in. *)
Lemma sort_stable_any (c : number) (l : list A) :
  keys_positive key l ->
  filter (fun a => strict_eq (key a) c) (Array.sort (descending key) l) =
  filter (fun a => strict_eq (key a) c) l.
Proof.
  intros Hpos.
  assert (Hnone : forall l', keys_positive key l' ->
                             (forall a, In a l' -> strict_eq (key a) c = false) ->
                             filter (fun a => strict_eq (key a) c) l' = []).
  { induction l' as [| a l' IH]; intros Hp Hf; [reflexivity|].
    cbn [filter]. rewrite (Hf a (or_introl eq_refl)).
    inversion Hp; subst. apply IH; [assumption|]. intros; apply Hf; right; assumption. }
  destruct (existsb (fun a => strict_eq (key a) c) l) eqn:E.
  - apply existsb_exists in E. destruct E as (a & Ha & Heq).
    unfold keys_positive in Hpos. rewrite Forall_forall in Hpos.
    pose proof (Hpos a Ha) as Hka. apply strict_eq_positive in Heq; [| exact Hka]. subst c.
    apply sort_stable; [assumption | apply Forall_forall; assumption].
  - assert (Hf : forall a, In a l -> strict_eq (key a) c = false).
    { intros a Ha. destruct (strict_eq (key a) c) eqn:Ea; [| reflexivity].
      rewrite <- E. symmetry. apply existsb_exists. eauto. }
    rewrite (Hnone l Hpos Hf). apply Hnone.
    + apply keys_positive_sort; assumption.
    + intros a Ha. apply Hf. eapply Permutation_in; [apply sort_perm | exact Ha].
Qed.

End SortStable.

Section SortUnique.
Variable A : Type.
Variable key : A -> number.

Lemma rank_inj (x y : number) :
  positive_double x -> positive_double y -> rank x = rank y -> x = y.
Proof.
  intros Hx Hy E. symmetry. apply strict_eq_positive; [exact Hx|].
  rewrite (eq_rank Hx Hy). apply Z.eqb_eq. exact E.
Qed.

(** A sorted list is determined by its elements and by the order of the
    elements of equal key: whatever algorithm an engine runs, a stable sort
    by a key that ranges over positive doubles returns [Array.sort]. *)
Lemma stable_sort_unique (l1 : list A) :
  forall l2 : list A,
    keys_positive key l1 ->
    Permutation l1 l2 ->
    StronglySorted (before key) l1 -> StronglySorted (before key) l2 ->
    (forall c, filter (fun a => strict_eq (key a) c) l1 =
               filter (fun a => strict_eq (key a) c) l2) ->
    l1 = l2.
Proof.
  induction l1 as [| x l1 IH]; intros l2 Hpos Hperm Hs1 Hs2 Hst.
  - apply Permutation_nil in Hperm. subst. reflexivity.
  - destruct l2 as [| y l2]; [apply Permutation_sym, Permutation_nil in Hperm; discriminate|].
    assert (Hpos2 : keys_positive key (y :: l2))
      by (eapply Permutation_Forall; [exact Hperm | exact Hpos]).
    inversion Hpos as [| ? ? Hx Hl1]; subst. inversion Hpos2 as [| ? ? Hy Hl2]; subst.
    inversion Hs1 as [| ? ? Hs1' Hx1]; subst. inversion Hs2 as [| ? ? Hs2' Hy2]; subst.
    assert (Hxy : key x = key y).
    { apply rank_inj; try assumption. apply Z.le_antisymm.
      - assert (Hin : In x (y :: l2)) by (eapply Permutation_in; [exact Hperm | left; reflexivity]).
        destruct Hin as [<- | Hin]; [lia|].
        rewrite Forall_forall in Hy2. pose proof (Hy2 x Hin) as Hb. unfold before in Hb.
        rewrite (le_rank Hx Hy) in Hb. apply Z.leb_le in Hb. exact Hb.
      - assert (Hin : In y (x :: l1))
          by (eapply Permutation_in; [symmetry; exact Hperm | left; reflexivity]).
        destruct Hin as [<- | Hin]; [lia|].
        rewrite Forall_forall in Hx1. pose proof (Hx1 y Hin) as Hb. unfold before in Hb.
        rewrite (le_rank Hy Hx) in Hb. apply Z.leb_le in Hb. exact Hb. }
    assert (Hself : forall z, positive_double z -> strict_eq z z = true).
    { intros z Hz. rewrite (eq_rank Hz Hz). apply Z.eqb_refl. }
    assert (Exy : x = y).
    { pose proof (Hst (key x)) as Hc. cbn [filter] in Hc.
      rewrite (Hself _ Hx) in Hc. rewrite <- Hxy in Hc. rewrite (Hself _ Hx) in Hc.
      inversion Hc. reflexivity. }
    subst y. f_equal. apply IH; try assumption.
    + eapply Permutation_cons_inv. exact Hperm.
    + intros c. pose proof (Hst c) as Hc. cbn [filter] in Hc.
      destruct (strict_eq (key x) c); [inversion Hc; reflexivity | exact Hc].
Qed.

Lemma sort_unique (l sorted : list A) :
  keys_positive key l ->
  Permutation sorted l ->
  StronglySorted (before key) sorted ->
  (forall c, filter (fun a => strict_eq (key a) c) sorted =
             filter (fun a => strict_eq (key a) c) l) ->
  sorted = Array.sort (descending key) l.
Proof.
  intros Hpos Hperm Hs Hst. apply stable_sort_unique.
  - eapply Permutation_Forall; [symmetry; exact Hperm | exact Hpos].
  - rewrite Hperm. symmetry. apply sort_perm.
  - exact Hs.
  - apply sort_sorted. exact Hpos.
  - intros c. rewrite Hst. symmetry. apply sort_stable_any. exact Hpos.
Qed.

End SortUnique.

Section ScorerClaims.
Context {RT : Runtime}.

(** C5: every number starts from the base confidence 0.3; when its
    formatted string occurs in the text, 0.2 is added for each of the ten
    keywords that occurs in the lowercased window reaching 100 code units to
    each side of the offset of the first occurrence, and the sum is clamped
    to 1.0; when the formatted string does not occur, the confidence is
    exactly 0.3.  The result lists the scored numbers by descending
    confidence, equal confidences keeping their input order. *)
Theorem findRevenueNumbers_spec (text : jsstring) (numbers : list number) :
  let contextHits i :=
    List.length
      (filter (includes (toLowerCase (skipn (i - 100) (firstn (i + 100) text))))
              (map str [ "revenue"; "sales"; "total"; "income"; "earnings";
                         "gross"; "net"; "received"; "collected"; "turnover" ]%string)) in
  let scored := map (scoreNumber text) numbers in
  (forall num,
      Scored.value (scoreNumber text num) = num /\
      Scored.confidence (scoreNumber text num) =
        match find text (toLocaleString num) with
        | Some i =>
            Math_min (Nat.iter (contextHits i) (fun c => add c (of_decimal 2 1))
                               (of_decimal 3 1)) (of_Z 1)
        | None => of_decimal 3 1
        end /\
      le (Scored.confidence (scoreNumber text num)) (of_Z 1) = true)
  /\ Permutation (findRevenueNumbers text numbers) scored
  /\ StronglySorted
       (fun a b => le (Scored.confidence b) (Scored.confidence a) = true)
       (findRevenueNumbers text numbers)
  /\ (forall c,
         filter (fun a => strict_eq (Scored.confidence a) c)
                (findRevenueNumbers text numbers) =
         filter (fun a => strict_eq (Scored.confidence a) c) scored).
Proof.
  cbv zeta. split; [| split; [| split]].
  - intros num. split; [reflexivity|]. split.
    + rewrite scoreNumber_confidence. unfold keywordHits, window.
      destruct (find text (toLocaleString num)); reflexivity.
    + rewrite scoreNumber_confidence. apply confidence_levels, keywordHits_le.
  - apply sort_perm.
  - apply (sort_sorted (key := Scored.confidence)), scored_positive.
  - intros c. apply (sort_stable_any (key := Scored.confidence)), scored_positive.
Qed.

(** C6: a number whose formatted string occurs in a text with the word
    "revenue" inside the context window scores strictly higher than the same
    number in a text where no keyword lies in its context; and no number in
    no text scores above 1.0. *)
Theorem revenue_keyword_raises_confidence
        (text text' : jsstring) (num : number) (i : nat) :
  find text (toLocaleString num) = Some i ->
  includes (toLowerCase (window text i)) (str "revenue") = true ->
  keywordHits text' num = O ->
  lt (Scored.confidence (scoreNumber text' num))
     (Scored.confidence (scoreNumber text num)) = true
  /\ forall t n, le (Scored.confidence (scoreNumber t n)) (of_Z 1) = true.
Proof.
  intros Hfind Hrev Hnone. split.
  - rewrite !scoreNumber_confidence, Hnone.
    assert (Hk : (1 <= keywordHits text num)%nat).
    { unfold keywordHits. rewrite Hfind. unfold revenueKeywords.
      cbn [map filter]. rewrite Hrev. cbn [List.length]. lia. }
    pose proof (keywordHits_le text num) as Hle.
    destruct (confidence_levels Hle) as (_ & _ & _ & _ & H). apply H, Hk.
  - intros t n. rewrite scoreNumber_confidence.
    apply confidence_levels, keywordHits_le.
Qed.

End ScorerClaims.

Lemma revenue_keyword_raises_confidence_witness :
  let text := str "Revenue 1,500" in
  let text' := str "Invoice 1,500" in
  let num := of_Z 1500 in
  find text (toLocaleString num) = Some 8%nat /\
  includes (toLowerCase (window text 8)) (str "revenue") = true /\
  keywordHits text' num = O /\
  lt (Scored.confidence (scoreNumber text' num))
     (Scored.confidence (scoreNumber text num)) = true.
Proof.
  cbv zeta.
  assert (H1 : find (str "Revenue 1,500") (toLocaleString (of_Z 1500)) = Some 8%nat)
    by (vm_compute; reflexivity).
  assert (H2 : includes (toLowerCase (window (str "Revenue 1,500") 8)) (str "revenue") = true)
    by (vm_compute; reflexivity).
  assert (H3 : keywordHits (str "Invoice 1,500") (of_Z 1500) = O)
    by (vm_compute; reflexivity).
  split; [exact H1 | split; [exact H2 | split; [exact H3 |]]].
  exact (proj1 (revenue_keyword_raises_confidence _ _ _ H1 H2 H3)).
Defined.

(** ** The currency detector *)

Lemma find_first (s pat : jsstring) (i : nat) :
  find s pat = Some i ->
  forall j, (j < i)%nat -> startsWith (skipn j s) pat = false.
Proof.
  revert i. induction s as [| c s IH]; intros i H j Hj; cbn [find] in H.
  - destruct (startsWith [] pat); inversion H; subst; lia.
  - destruct (startsWith (c :: s) pat) eqn:E; [inversion H; subst; lia|].
    destruct (find s pat) as [k |] eqn:F; [| discriminate]. inversion H; subst.
    destruct j as [| j]; [exact E|]. cbn [skipn]. apply (IH k eq_refl). lia.
Qed.

Section CurrencyClaims.
Context {RT : Runtime}.

(** The loop returns the code of the first entry whose uppercased marker
    occurs in the uppercased text, and the default when there is none. *)
Lemma detectCurrency_loop_spec (upperText : jsstring)
      (entries : list (jsstring * jsstring)) :
  (exists i marker code,
      nth_error entries i = Some (marker, code) /\
      includes upperText (toUpperCase marker) = true /\
      (forall j m c, (j < i)%nat -> nth_error entries j = Some (m, c) ->
                     includes upperText (toUpperCase m) = false) /\
      detectCurrency_loop upperText entries = code)
  \/ ((forall m c, In (m, c) entries ->
                   includes upperText (toUpperCase m) = false) /\
      detectCurrency_loop upperText entries = str "AED").
Proof.
  induction entries as [| [m c] entries IH]; cbn [detectCurrency_loop].
  - right. split; [intros ? ? []| reflexivity].
  - destruct (includes upperText (toUpperCase m)) eqn:E.
    + left. exists O, m, c. repeat split; try assumption. intros; lia.
    + destruct IH as [(i & m' & c' & Hn & Hi & Hj & Hr) | [Hall Hr]].
      * left. exists (S i), m', c'. repeat split; try assumption.
        intros [| j] m0 c0 Hlt Hnth; cbn [nth_error] in Hnth.
        -- inversion Hnth; subst. exact E.
        -- eapply Hj; [| exact Hnth]. lia.
      * right. split; [| exact Hr]. intros m0 c0 [Heq | Hin].
        -- inversion Heq; subst. exact E.
        -- eapply Hall; exact Hin.
Qed.

Lemma upper_includes (marker text : jsstring) :
  preserves_basic_latin RT ->
  forallb upper_stable marker = true ->
  includes text marker = true ->
  includes (toUpperCase text) (toUpperCase marker) = true.
Proof.
  intros HP Hm Hi. destruct (HP marker Hm) as [Hfix Hmid]. rewrite Hfix.
  apply includes_iff in Hi. destruct Hi as (pre & post & ->).
  destruct (Hmid pre post) as (pre' & post' & ->).
  apply includes_iff. eauto.
Qed.

Lemma includes_trans (s t u : jsstring) :
  includes s t = true -> includes t u = true -> includes s u = true.
Proof.
  rewrite !includes_iff. intros (p1 & q1 & ->) (p2 & q2 & ->).
  exists (p1 ++ p2), (q2 ++ q1). rewrite <- !app_assoc. reflexivity.
Qed.

(** C7: the detector returns the code of the earliest entry of the mapping
    whose uppercased marker is a substring of the uppercased text, and the
    fixed default "AED" when no marker is; so, [toUpperCase] leaving Basic
    Latin text other than lowercase letters as it is, a text containing
    "AED 500" yields "AED", and a text containing both "$" and "EUR" yields
    the code declared earliest among the markers present: "USD", the code of
    "$", unless one of the three markers declared before "$" (all of code
    "AED") is present as well; never "EUR". *)
Theorem detectCurrency_spec (text : jsstring) :
  let present marker := includes (toUpperCase text) (toUpperCase marker) in
  ((exists i marker code,
       nth_error currencyMap i = Some (marker, code) /\
       present marker = true /\
       (forall j m c, (j < i)%nat -> nth_error currencyMap j = Some (m, c) ->
                      present m = false) /\
       detectCurrency text = code)
   \/ ((forall m c, In (m, c) currencyMap -> present m = false) /\
       detectCurrency text = str "AED"))
  /\ (preserves_basic_latin RT ->
      includes text (str "AED 500") = true -> detectCurrency text = str "AED")
  /\ (preserves_basic_latin RT ->
      includes text (str "$") = true -> includes text (str "EUR") = true ->
      detectCurrency text =
        (if existsb (fun e => present (fst e)) (firstn 3 currencyMap)
         then str "AED" else str "USD")).
Proof.
  intros present. split; [apply detectCurrency_loop_spec|]. split.
  - intros HP H.
    assert (Ha : present (str "AED") = true).
    { apply upper_includes; [assumption | reflexivity |].
      eapply includes_trans; [exact H|]. reflexivity. }
    unfold detectCurrency, currencyMap. cbn [detectCurrency_loop].
    fold (present (str "AED")). rewrite Ha. reflexivity.
  - intros HP Hd _.
    assert (Ha : present (str "$") = true)
      by (apply upper_includes; [assumption | reflexivity | assumption]).
    unfold detectCurrency, currencyMap. cbn [detectCurrency_loop firstn existsb fst].
    fold (present (str "AED")). fold (present (str "Dh")).
    fold (present [255; 216; 255; 177; 376; 225; 376; 214]%N).
    fold (present (str "$")). rewrite Ha.
    destruct (present (str "AED")); [reflexivity|].
    destruct (present (str "Dh")); [reflexivity|].
    destruct (present [255; 216; 255; 177; 376; 225; 376; 214]%N); reflexivity.
Qed.

End CurrencyClaims.

Lemma EnUS_preserves_basic_latin : preserves_basic_latin EnUS.runtime.
Proof.
  intros s Hs.
  assert (Hfix : forall t, forallb upper_stable t = true -> EnUS.upper t = t).
  { induction t as [| c t IH]; [reflexivity|]. cbn [forallb]. intros H.
    apply andb_true_iff in H. destruct H as [Hc Ht].
    unfold EnUS.upper in *. cbn [flat_map]. rewrite (IH Ht).
    replace (EnUS.upper_unit c) with [c]; [reflexivity|].
    unfold upper_stable in Hc. unfold EnUS.upper_unit.
    repeat match goal with
           | |- context [(?a <=? ?b)%N] => destruct (N.leb_spec a b)
           | |- context [(?a =? ?b)%N] => destruct (N.eqb_spec a b)
           | H : context [(?a <? ?b)%N] |- _ => destruct (N.ltb_spec a b)
           end; cbn in *; try reflexivity; try discriminate; lia. }
  split; [apply Hfix, Hs|]. intros pre post.
  exists (EnUS.upper pre), (EnUS.upper post).
  cbn [toUpperCase EnUS.runtime]. unfold EnUS.upper.
  rewrite !flat_map_app. fold (EnUS.upper s). rewrite (Hfix s Hs). reflexivity.
Qed.

Lemma detectCurrency_spec_witness :
  let text := str "Paid AED 500 ($136, EUR 125)" in
  preserves_basic_latin EnUS.runtime /\
  includes text (str "AED 500") = true /\
  includes text (str "$") = true /\
  includes text (str "EUR") = true /\
  detectCurrency text = str "AED".
Proof.
  cbv zeta.
  split; [exact EnUS_preserves_basic_latin|].
  assert (H : includes (str "Paid AED 500 ($136, EUR 125)") (str "AED 500") = true)
    by (vm_compute; reflexivity).
  split; [exact H|]. split; [vm_compute; reflexivity|]. split; [vm_compute; reflexivity|].
  exact (proj1 (proj2 (detectCurrency_spec (str "Paid AED 500 ($136, EUR 125)")))
           EnUS_preserves_basic_latin H).
Defined.

(** ** The number tokenizer *)

Lemma filter_filter_implied (A : Type) (p q : A -> bool) (l : list A) :
  (forall x, p x = true -> q x = true) ->
  filter p (filter q l) = filter p l.
Proof.
  intros Hpq. induction l as [| x l IH]; [reflexivity|]. cbn [filter].
  destruct (q x) eqn:Eq.
  - cbn [filter]. rewrite IH. reflexivity.
  - rewrite IH. destruct (p x) eqn:Ep; [| reflexivity].
    apply Hpq in Ep. congruence.
Qed.

Lemma filter_map_swap (A B : Type) (f : A -> B) (p : B -> bool) (l : list A) :
  filter p (map f l) = map f (filter (fun x => p (f x)) l).
Proof.
  induction l as [| x l IH]; [reflexivity|]. cbn [map filter].
  rewrite IH. destruct (p (f x)); reflexivity.
Qed.

Lemma StronglySorted_filter (A : Type) (R : A -> A -> Prop) (p : A -> bool)
      (l : list A) :
  StronglySorted R l -> StronglySorted R (filter p l).
Proof.
  induction 1 as [| x l Hs IH Hx]; [constructor|]. cbn [filter].
  destruct (p x); [| exact IH]. constructor; [exact IH|].
  rewrite Forall_forall in Hx |- *. intros y Hy.
  apply filter_In in Hy. apply Hx, Hy.
Qed.

Lemma Forall_filter (A : Type) (P : A -> Prop) (p : A -> bool) (l : list A) :
  Forall P l -> Forall P (filter p l).
Proof.
  rewrite !Forall_forall. intros H x Hx. apply filter_In in Hx. apply H, Hx.
Qed.

Lemma gt_zero_not_NaN (x : number) : gt x zero = true -> isNaN x = false.
Proof. destruct x; try reflexivity. discriminate. Qed.

(** The numbers extracted are the values of the tokens whose value is
    greater than zero, in the order of the tokens. *)
Lemma extractNumbers_tokens (text : jsstring) :
  extractNumbers text =
  map tokenValue
      (filter (fun pt => gt (tokenValue pt) zero) (matchAll numberPattern text)).
Proof.
  unfold extractNumbers, String_match.
  destruct (matchAll numberPattern text) as [| pt ms] eqn:E; [reflexivity|].
  rewrite filter_filter_implied by (intros x Hx; rewrite (gt_zero_not_NaN _ Hx); reflexivity).
  rewrite map_map. rewrite filter_map_swap. reflexivity.
Qed.

(** Every number the tokenizer returns is a positive double. *)
Lemma extractNumbers_positive (text : jsstring) :
  Forall positive_double (extractNumbers text).
Proof.
  rewrite extractNumbers_tokens, Forall_map. apply Forall_forall.
  intros pt Hin. apply filter_In in Hin. destruct Hin as [_ Hgt].
  split; [apply parseFloat_valid | exact Hgt].
Qed.

(** C2, as the code has it: "1,234.56" yields the single value 1234.56;
    "99" and "99.00" both yield 99; "0" yields nothing; and for every text
    the result lists, in order, the values of exactly those tokens whose
    value is greater than zero, so that a token whose value is not a number,
    is zero or is negative is discarded (a value of +Infinity is greater
    than zero and is kept). *)
Theorem extractNumbers_spec :
  extractNumbers (str "1,234.56") = [of_decimal 123456 2]
  /\ extractNumbers (str "99") = [of_Z 99]
  /\ extractNumbers (str "99.00") = [of_Z 99]
  /\ extractNumbers (str "0") = []
  /\ (forall text,
         extractNumbers text =
         map (fun token => parseFloat (remove_all 44 (snd token)))
             (filter (fun token => gt (parseFloat (remove_all 44 (snd token))) zero)
                     (matchAll numberPattern text)))
  /\ (forall x,
         gt x zero = true <->
         (exists m e, x = S754_finite false m e) \/ x = Infinity).
Proof.
  do 4 (split; [vm_compute; reflexivity|]). split.
  - apply extractNumbers_tokens.
  - intros x. split.
    + destruct x as [[] | [] | | [] m e]; try discriminate; eauto.
    + intros [(m & e & ->) | ->]; reflexivity.
Qed.

(** The claim of C2 fails on a token beyond the range of the doubles, which
    does not parse to a finite number and is not discarded; it also fails on
    "-5", where the token is "5". *)
Lemma extractNumbers_keeps_overflow :
  matchAll numberPattern overflowing = [(O, overflowing)]
  /\ isFinite (parseFloat (remove_all 44 overflowing)) = false
  /\ In (parseFloat (remove_all 44 overflowing)) (extractNumbers overflowing)
  /\ extractNumbers (str "-5") = [of_Z 5].
Proof.
  split; [vm_compute; reflexivity|]. split; [vm_compute; reflexivity|].
  split; [| vm_compute; reflexivity].
  assert (E : extractNumbers overflowing = [Infinity]) by (vm_compute; reflexivity).
  assert (P : parseFloat (remove_all 44 overflowing) = Infinity) by (vm_compute; reflexivity).
  rewrite E, P. left. reflexivity.
Qed.

(** The doc comment of the function names 1234.56 among the formats it
    handles; the first alternative of the pattern stops after three digits,
    so the number is split. *)
Example plain_digits_are_split :
  extractNumbers (str "1234.56") = [of_Z 123; of_decimal 456 2].
Proof. vm_compute. reflexivity. Qed.

(** The claim of C9 fails on a token beyond the range of the doubles: its
    value is +Infinity, which is kept. *)
Lemma extractNumbers_keeps_Infinity :
  extractNumbers overflowing = [Infinity]
  /\ ~ Forall (fun x => isFinite x = true /\ gt x zero = true)
              (extractNumbers overflowing).
Proof.
  assert (E : extractNumbers overflowing = [Infinity]) by (vm_compute; reflexivity).
  split; [exact E|]. rewrite E. intros H. inversion H as [| ? ? [Hf _] _]; subst.
  discriminate.
Qed.

(** C9, as the code has it: the numbers extracted are doubles greater than
    zero, none is NaN (each is finite, or +Infinity for a token beyond the
    range); they are the values of the tokens found in the text, each token
    reading at its offset, in the order of the offsets, without overlap; and
    every token of positive value contributes, equal values included. *)
Theorem extractNumbers_ordered (text : jsstring) :
  Forall (fun x => positive_double x /\ isNaN x = false /\
                   (isFinite x = true \/ x = Infinity))
         (extractNumbers text)
  /\ (exists kept : list (nat * jsstring),
         kept = filter (fun pt => gt (tokenValue pt) zero)
                       (matchAll numberPattern text)
         /\ extractNumbers text = map tokenValue kept
         /\ Forall (occurs_at text) kept
         /\ StronglySorted precedes kept)
  /\ extractNumbers (str "7 and 7") = [of_Z 7; of_Z 7].
Proof.
  split; [| split].
  - pose proof (extractNumbers_positive text) as Hpos.
    eapply Forall_impl; [| exact Hpos]. intros x Hx. split; [exact Hx|].
    destruct Hx as [_ Hgt]. split; [apply gt_zero_not_NaN, Hgt|].
    destruct x as [[] | [] | | [] ? ?]; try discriminate; auto.
  - eexists. split; [reflexivity|]. split; [apply extractNumbers_tokens|]. split.
    + apply Forall_filter, matchAll_occurs.
    + apply StronglySorted_filter, matchAll_ordered.
  - vm_compute; reflexivity.
Qed.

(** ** The breakdown estimator *)

Lemma mul_comm (x y : number) : mul x y = mul y x.
Proof.
  destruct x as [sx | sx | | sx mx ex], y as [sy | sy | | sy my ey];
    cbn [mul SFmul]; rewrite ?(xorb_comm sx sy); try reflexivity.
  rewrite (Pos.mul_comm mx my), (Z.add_comm ex ey). reflexivity.
Qed.

Lemma positive_truthy (x : number) : positive_double x -> truthy x = true.
Proof.
  intros Hx. destruct (positive_double_inv Hx) as [-> | (m & e & -> & _)]; reflexivity.
Qed.

Lemma sort_numbers (numbers : list number) :
  Forall positive_double numbers ->
  let sorted := Array.sort (fun a b => sub b a) numbers in
  Permutation sorted numbers
  /\ StronglySorted (fun a b => le b a = true) sorted
  /\ Forall positive_double sorted.
Proof.
  intros Hpos. cbv zeta. split; [| split].
  - apply (sort_perm (fun x : number => x)).
  - apply (sort_sorted (key := fun x : number => x)). exact Hpos.
  - apply (keys_positive_sort (key := fun x : number => x)). exact Hpos.
Qed.

(** C3: no number gives 0, 0, 0; a single number [t] gives round(t/12),
    round(0.8*(t/12)) and growth 20; two or more detected numbers are sorted
    by descending value, the second gives thisMonth, the third (or 0.85
    times the second when there is no third) gives lastMonth, both rounded,
    and growth is round(((current - previous)/previous)*100), taken as 0
    when previous is 0.  The detected numbers are positive doubles, whatever
    the text.  In particular [100, 50, 10] gives (50, 10, 400) and [1200]
    gives (100, 80, 20). *)
Theorem estimateBreakdown_spec :
  estimateBreakdown [] =
    {| Breakdown.thisMonth := zero; Breakdown.lastMonth := zero;
       Breakdown.growth := zero |}
  /\ (forall t,
         estimateBreakdown [t] =
           {| Breakdown.thisMonth := Math_round (div t (of_Z 12));
              Breakdown.lastMonth :=
                Math_round (mul (of_decimal 8 1) (div t (of_Z 12)));
              Breakdown.growth := of_Z 20 |})
  /\ (forall numbers,
         (2 <= List.length numbers)%nat ->
         Forall positive_double numbers ->
         exists first second rest,
           Permutation (first :: second :: rest) numbers /\
           StronglySorted (fun a b => le b a = true) (first :: second :: rest) /\
           let previous :=
             match rest with
             | third :: _ => third
             | [] => mul (of_decimal 85 2) second
             end in
           estimateBreakdown numbers =
             {| Breakdown.thisMonth := Math_round second;
                Breakdown.lastMonth := Math_round previous;
                Breakdown.growth :=
                  Math_round
                    (if strict_eq previous zero then zero
                     else mul (div (sub second previous) previous) (of_Z 100)) |})
  /\ (forall text, Forall positive_double (extractNumbers text))
  /\ estimateBreakdown [of_Z 100; of_Z 50; of_Z 10] =
       {| Breakdown.thisMonth := of_Z 50; Breakdown.lastMonth := of_Z 10;
          Breakdown.growth := of_Z 400 |}
  /\ estimateBreakdown [of_Z 1200] =
       {| Breakdown.thisMonth := of_Z 100; Breakdown.lastMonth := of_Z 80;
          Breakdown.growth := of_Z 20 |}.
Proof.
  split; [reflexivity|].
  split; [| split; [| split; [apply extractNumbers_positive
                             | split; vm_compute; reflexivity]]].
  - intros t. unfold estimateBreakdown. cbn [List.length Nat.eqb Array.get nth_error Array.to_number].
    rewrite (mul_comm (of_decimal 8 1)). reflexivity.
  - intros numbers Hlen Hpos.
    destruct (sort_numbers Hpos) as (Hperm & Hsorted & Hspos).
    unfold estimateBreakdown.
    destruct (Array.sort (fun a b => sub b a) numbers) as [| first [| second rest]] eqn:E.
    + apply Permutation_length in Hperm. cbn in Hperm. lia.
    + apply Permutation_length in Hperm. cbn in Hperm. lia.
    + exists first, second, rest. split; [exact Hperm|]. split; [exact Hsorted|].
      destruct numbers as [| a [| b numbers]]; cbn in Hlen; try lia.
      cbn [List.length Nat.eqb].
      cbn [Array.get nth_error Array.to_number]. unfold calculateGrowth.
      destruct rest as [| third rest]; cbn [Array.or_else nth_error].
      * rewrite (mul_comm (of_decimal 85 2)). reflexivity.
      * inversion Hspos as [| ? ? _ H2]; subst. inversion H2 as [| ? ? _ H3]; subst.
        inversion H3 as [| ? ? Hthird _]; subst.
        rewrite (positive_truthy Hthird). reflexivity.
Qed.

Lemma estimateBreakdown_spec_witness :
  let numbers := [of_Z 10200; of_Z 12450] in
  (2 <= List.length numbers)%nat /\
  Forall positive_double numbers /\
  exists first second rest,
    Permutation (first :: second :: rest) numbers /\
    StronglySorted (fun a b => le b a = true) (first :: second :: rest) /\
    let previous :=
      match rest with
      | third :: _ => third
      | [] => mul (of_decimal 85 2) second
      end in
    estimateBreakdown numbers =
      {| Breakdown.thisMonth := Math_round second;
         Breakdown.lastMonth := Math_round previous;
         Breakdown.growth :=
           Math_round
             (if strict_eq previous zero then zero
              else mul (div (sub second previous) previous) (of_Z 100)) |}.
Proof.
  cbv zeta.
  assert (Hlen : (2 <= List.length [of_Z 10200; of_Z 12450])%nat) by (simpl; lia).
  assert (Hpos : Forall positive_double [of_Z 10200; of_Z 12450])
    by (repeat constructor; vm_compute; reflexivity).
  split; [exact Hlen|]. split; [exact Hpos|].
  exact (proj1 (proj2 (proj2 estimateBreakdown_spec)) _ Hlen Hpos).
Defined.

(** The claim of C10 fails on two numbers read from a text, the smaller
    being the smallest positive double: 0.85 times it rounds to itself and
    the growth is 0. *)
Lemma growth_of_two_is_not_always_18 :
  let numbers := extractNumbers (str "0." ++ repeat 48%N 323 ++ str "5 and 1") in
  numbers = [S754_finite false 1 (-1074); of_Z 1]
  /\ Forall positive_double numbers
  /\ Breakdown.growth (estimateBreakdown numbers) = zero
  /\ Breakdown.growth (estimateBreakdown numbers) <> of_Z 18.
Proof.
  cbv zeta.
  assert (E : extractNumbers (str "0." ++ repeat 48%N 323 ++ str "5 and 1") =
              [S754_finite false 1 (-1074); of_Z 1]) by (vm_compute; reflexivity).
  rewrite E. split; [reflexivity|]. split.
  - repeat constructor; vm_compute; reflexivity.
  - split; [vm_compute; reflexivity | vm_compute; discriminate].
Qed.

(** ** The orchestrator on the successful path *)

Lemma Math_round_nonneg (x : number) :
  gt x zero = true -> le zero (Math_round x) = true.
Proof.
  destruct x as [[] | [] | | [] m e]; try discriminate; intros _; try reflexivity.
  cbn [Math_round]. destruct (0 <=? e) eqn:He; [reflexivity|].
  apply Z.leb_gt in He.
  set (n := (2 * Z.pos m + 2 ^ (- e)) / 2 ^ (1 - e)).
  assert (Hn : 0 <= n).
  { apply Z.div_pos; [| apply pow2_pos; lia].
    assert (0 < 2 ^ (- e)) by (apply pow2_pos; lia). lia. }
  destruct (n =? 0) eqn:E0; [reflexivity|]. apply Z.eqb_neq in E0.
  destruct n as [| p | p]; try lia. unfold of_Z, binary_normalize.
  assert (Hz : emin <= 0) by (unfold emin, SpecFloat.emin, prec, emax; lia).
  destruct (binary_round_pos false p Hz) as [(m' & e' & ->) | ->]; reflexivity.
Qed.

Section OrchestratorClaims.
Context {RT : Runtime} {File Worker : Type} {OCR : Tesseract File Worker}.

Lemma findRevenueNumbers_length (text : jsstring) (numbers : list number) :
  List.length (findRevenueNumbers text numbers) = List.length numbers.
Proof.
  unfold findRevenueNumbers.
  rewrite (sort_length Scored.confidence), length_map. reflexivity.
Qed.

Lemma findRevenueNumbers_In (text : jsstring) (numbers : list number)
      (top : Scored.t) :
  In top (findRevenueNumbers text numbers) ->
  exists num, In num numbers /\ top = scoreNumber text num.
Proof.
  intros H. apply (Permutation_in _ (sort_perm Scored.confidence _)) in H.
  apply in_map_iff in H. destruct H as (num & <- & Hin). eauto.
Qed.

Lemma analyze_success (imageFile : File) (cs : list call) (text : jsstring) :
  extractTextFromImage imageFile = (cs, Returns text) ->
  analyzeRevenueScreenshot imageFile =
    (cs, Returns (assemble text (extractNumbers text) (detectCurrency text)
                    (findRevenueNumbers text (extractNumbers text)))).
Proof.
  intros H. unfold analyzeRevenueScreenshot. rewrite H. cbn. rewrite app_nil_r.
  reflexivity.
Qed.

(** C4, as the code has it: when the extractor returns a text, the result
    is tagged [ocr]; its totalRevenue is the top-ranked scored number
    rounded to the nearest integer and its confidence is that number's
    confidence; when there is no scored number there is no raw number
    either, totalRevenue is 0 and the confidence is 0.3.  The branch for
    raw numbers without scored candidates takes the rounded maximum of the
    raw numbers with confidence 0.3. *)
Theorem analyze_ocr_path (imageFile : File) (cs : list call) (text : jsstring) :
  extractTextFromImage imageFile = (cs, Returns text) ->
  exists r,
    analyzeRevenueScreenshot imageFile = (cs, Returns r)
    /\ analysisMethod r = ocr
    /\ match findRevenueNumbers text (extractNumbers text) with
       | top :: _ =>
           totalRevenue r = Math_round (Scored.value top) /\
           confidence r = Scored.confidence top
       | [] =>
           extractNumbers text = [] /\
           totalRevenue r = zero /\ confidence r = of_decimal 3 1
       end
    /\ forall allNumbers currency,
        allNumbers <> [] ->
        totalRevenue (assemble text allNumbers currency []) =
          Math_round (Math_max allNumbers) /\
        confidence (assemble text allNumbers currency []) = of_decimal 3 1.
Proof.
  intros H. eexists. split; [apply analyze_success, H|]. split; [reflexivity|]. split.
  - pose proof (findRevenueNumbers_length text (extractNumbers text)) as Hlen.
    destruct (findRevenueNumbers text (extractNumbers text)) as [| top rest] eqn:E.
    + destruct (extractNumbers text); [| discriminate]. repeat split.
    + split; reflexivity.
  - intros allNumbers cur Hne. destruct allNumbers; [congruence|]. split; reflexivity.
Qed.

(** C8: for every image the analysis returns a result, never throws, and
    the result has a confidence between 0 and 1 and a totalRevenue that is
    not negative; when the extraction throws, the result is the fixed
    fallback. *)
Theorem analyze_total (imageFile : File) :
  exists cs r,
    analyzeRevenueScreenshot imageFile = (cs, Returns r)
    /\ le zero (confidence r) = true
    /\ le (confidence r) (of_Z 1) = true
    /\ le zero (totalRevenue r) = true
    /\ (forall error, snd (extractTextFromImage imageFile) = Throws error ->
                      r = fallbackAnalysis).
Proof.
  destruct (extractTextFromImage imageFile) as [cs [text | error]] eqn:E.
  - exists cs. eexists. split; [apply analyze_success, E|].
    pose proof (findRevenueNumbers_length text (extractNumbers text)) as Hlen.
    destruct (findRevenueNumbers text (extractNumbers text)) as [| top rest] eqn:F.
    + destruct (extractNumbers text); [| discriminate].
      repeat split. cbn [snd]. discriminate.
    + cbn [assemble confidence totalRevenue].
      destruct (@findRevenueNumbers_In text (extractNumbers text) top) as (num & Hin & ->).
      { rewrite F. left. reflexivity. }
      rewrite scoreNumber_confidence, scoreNumber_value.
      destruct (confidence_levels (keywordHits_le text num)) as (_ & H1 & _ & H0 & _).
      split; [exact H0|]. split; [exact H1|]. split; [| cbn [snd]; discriminate].
      apply Math_round_nonneg.
      rewrite extractNumbers_tokens in Hin. apply in_map_iff in Hin.
      destruct Hin as (pt & <- & Hpt). apply filter_In in Hpt. apply Hpt.
  - exists cs. eexists. split; [apply (analyze_failure _ E)|]. repeat split.
Qed.

End OrchestratorClaims.

(** The claim of C4 fails on a text whose only number is 12.5: the
    top-ranked scored number is 12.5 and totalRevenue is 13. *)
Lemma totalRevenue_is_rounded :
  let text := str "12.5" in
  exists r top,
    @analyzeRevenueScreenshot EnUS.runtime jsstring unit Engines.reading text =
      ([CreateWorker; Recognize; Terminate], Returns r)
    /\ findRevenueNumbers text (extractNumbers text) = [top]
    /\ Scored.value top = of_decimal 125 1
    /\ totalRevenue r = of_Z 13
    /\ totalRevenue r <> Scored.value top.
Proof.
  cbv zeta. eexists _, _.
  split; [vm_compute; reflexivity|]. split; [vm_compute; reflexivity|].
  split; [vm_compute; reflexivity|]. split; [vm_compute; reflexivity|].
  vm_compute. discriminate.
Qed.

Lemma analyze_ocr_path_witness :
  let text := str "Total Revenue: $12,450 this month, $10,200 last month" in
  @extractTextFromImage jsstring unit Engines.reading text =
    ([CreateWorker; Recognize; Terminate], Returns text)
  /\ exists r,
      @analyzeRevenueScreenshot EnUS.runtime jsstring unit Engines.reading text =
        ([CreateWorker; Recognize; Terminate], Returns r)
      /\ analysisMethod r = ocr.
Proof.
  cbv zeta. split; [reflexivity|].
  destruct (@analyze_ocr_path EnUS.runtime jsstring unit Engines.reading
              (str "Total Revenue: $12,450 this month, $10,200 last month")
              _ _ eq_refl) as (r & Hr & Hm & _).
  exists r. split; assumption.
Defined.

(** ** Growth for two numbers *)

Lemma estimateBreakdown_two (a b : number) :
  positive_double a -> positive_double b ->
  let m := if lt a b then a else b in
  estimateBreakdown [a; b] =
    {| Breakdown.thisMonth := Math_round m;
       Breakdown.lastMonth := Math_round (mul m n0_85);
       Breakdown.growth := Math_round (calculateGrowth m (mul m n0_85)) |}.
Proof.
  intros Ha Hb. cbv zeta. unfold estimateBreakdown.
  cbn [List.length Nat.eqb Array.sort fold_right Array.insert].
  change (Array.after (fun a0 b0 : number => sub b0 a0) a b) with (gt (sub b a) zero).
  rewrite (sub_gt_zero Ha Hb). destruct (lt a b); reflexivity.
Qed.

(** *** Rounding errors of the arithmetic *)

Lemma powerRZ_pos (e : Z) : (0 < powerRZ 2 e)%R.
Proof. apply powerRZ_lt. lra. Qed.

Lemma powerRZ_IZR (e : Z) : 0 <= e -> powerRZ 2 e = IZR (2 ^ e).
Proof.
  intros He. destruct e as [| p | p]; try lia; [reflexivity|].
  cbn [powerRZ]. rewrite pow_IZR, positive_nat_Z. reflexivity.
Qed.

Lemma powerRZ_split (a b : Z) : powerRZ 2 (a + b) = (powerRZ 2 a * powerRZ 2 b)%R.
Proof. apply powerRZ_add. lra. Qed.

Lemma eps_pos : (0 < eps < 1 / 1000000)%R.
Proof. unfold eps. lra. Qed.

(** Rounding in the normal range moves a value by at most its [2^-52]th. *)
Lemma binary_round_aux_near (mx ex : Z) (lx : location) (v : R) :
  0 < mx -> prec <= Zdigits2 mx ->
  emin <= Zdigits2 mx + ex - prec ->
  (Zdigits2 mx + ex <= emax - 1 \/
   (Zdigits2 mx + ex = emax /\ mx / 2 ^ (Zdigits2 mx - prec) + 1 < 2 ^ prec)) ->
  (IZR mx * powerRZ 2 ex <= v <= IZR (mx + 1) * powerRZ 2 ex)%R ->
  exists m' e',
    binary_round_aux prec emax false mx ex lx = S754_finite false m' e' /\
    bounded prec emax m' e' = true /\
    Z.pos (digits2_pos m') = prec /\
    near (B2R (S754_finite false m' e')) v.
Proof.
  intros Hm Hd Hlo Hhi Hv.
  destruct (binary_round_aux_normal ex lx Hm Hd Hlo Hhi)
    as (m' & e' & Hr & Hb & Hd' & Hcase & He' & Hm1).
  exists m', e'. split; [exact Hr|]. split; [exact Hb|]. split; [exact Hd'|].
  set (n := Zdigits2 mx - prec) in *. set (m1 := mx / 2 ^ n) in *.
  assert (Hn0 : 0 <= n) by (unfold n; lia).
  assert (Hp : 0 < 2 ^ n) by (apply pow2_pos; lia).
  assert (Hdiv : m1 * 2 ^ n <= mx < (m1 + 1) * 2 ^ n).
  { unfold m1. pose proof (Z.mul_div_le mx (2 ^ n) Hp).
    pose proof (Z.mul_succ_div_gt mx (2 ^ n) Hp). lia. }
  set (U := powerRZ 2 (ex + n)).
  assert (HU : (0 < U)%R) by apply powerRZ_pos.
  assert (Hex : powerRZ 2 ex = (U / IZR (2 ^ n))%R).
  { unfold U. rewrite powerRZ_split, (powerRZ_IZR Hn0). field.
    apply not_0_IZR. lia. }
  assert (HnR : (0 < IZR (2 ^ n))%R) by (apply IZR_lt; lia).
  assert (HL : (IZR m1 * U <= v <= (IZR m1 + 1) * U)%R).
  { destruct Hv as [Hv1 Hv2]. rewrite Hex in Hv1, Hv2.
    set (P := IZR (2 ^ n)) in *. set (W := (U / P)%R) in *.
    assert (HW : (0 < W)%R) by (apply Rdiv_lt_0_compat; assumption).
    assert (HUW : U = (P * W)%R) by (unfold W; field; lra).
    assert (H1 : (IZR m1 * P <= IZR mx)%R).
    { unfold P. rewrite <- mult_IZR. apply IZR_le. lia. }
    assert (H2 : (IZR (mx + 1) <= (IZR m1 + 1) * P)%R).
    { unfold P. rewrite <- (plus_IZR m1 1), <- mult_IZR. apply IZR_le. lia. }
    rewrite HUW. split; nra. }
  assert (Hval : B2R (S754_finite false m' e') = (IZR (Z.pos m' * 2 ^ (e' - (ex + n))) * U)%R).
  { cbn [B2R]. replace e' with ((e' - (ex + n)) + (ex + n)) at 1 by lia.
    rewrite powerRZ_split, powerRZ_IZR by lia. rewrite mult_IZR. unfold U. ring. }
  assert (Hm1R : (4503599627370496 <= IZR m1)%R).
  { apply IZR_le. exact Hm1. }
  unfold near. rewrite Hval. unfold eps.
  assert (HUm : (U <= / 4503599627370496 * (IZR m1 * U))%R).
  { replace U with (/ 4503599627370496 * (4503599627370496 * U))%R at 1 by field.
    apply Rmult_le_compat_l; [lra|]. apply Rmult_le_compat_r; lra. }
  destruct Hcase as [-> | ->]; rewrite ?plus_IZR; nra.
Qed.

Lemma near_exact (v : R) : (0 <= v)%R -> near v v.
Proof. intros Hv. unfold near. pose proof eps_pos. nra. Qed.

Lemma B2R_finite_pos (m : positive) (e : Z) : (0 < B2R (S754_finite false m e))%R.
Proof.
  cbn [B2R]. apply Rmult_lt_0_compat; [apply IZR_lt; lia | apply powerRZ_pos].
Qed.

Lemma mantissa_range (m : positive) :
  Z.pos (digits2_pos m) = prec -> 2 ^ 52 <= Z.pos m < 2 ^ 53.
Proof. intros H. pose proof (digits2_pos_bounds m) as Hb. rewrite H in Hb. exact Hb. Qed.

(** The product of two normal doubles, away from underflow and overflow. *)
Lemma mul_near (mx my : positive) (ex ey : Z) :
  Z.pos (digits2_pos mx) = prec -> Z.pos (digits2_pos my) = prec ->
  emin <= 52 + ex + ey ->
  (ex + ey <= emax - 107 \/
   (ex + ey <= emax - 106 /\ Z.pos mx * Z.pos my < (2 ^ 53 - 1) * 2 ^ 53)) ->
  exists m' e',
    mul (S754_finite false mx ex) (S754_finite false my ey) = S754_finite false m' e' /\
    normal m' e' /\
    near (B2R (S754_finite false m' e'))
         (B2R (S754_finite false mx ex) * B2R (S754_finite false my ey)).
Proof.
  intros Hdx Hdy Hlo Hhi.
  pose proof (mantissa_range _ Hdx) as Hx. pose proof (mantissa_range _ Hdy) as Hy.
  set (P := Z.pos mx * Z.pos my).
  assert (HP : 2 ^ 104 <= P < 2 ^ 106).
  { unfold P. change (2 ^ 104) with (2 ^ 52 * 2 ^ 52). change (2 ^ 106) with (2 ^ 53 * 2 ^ 53).
    split; [apply Z.mul_le_mono_nonneg; lia | apply Z.mul_lt_mono_nonneg; lia]. }
  assert (HP0 : 0 < P) by (unfold P; lia).
  pose proof (Zdigits2_bounds HP0) as Hd.
  assert (Hd1 : 105 <= Zdigits2 P <= 106).
  { split.
    - destruct (Z.le_gt_cases 105 (Zdigits2 P)); [assumption|].
      assert (2 ^ Zdigits2 P <= 2 ^ 104) by (apply Z.pow_le_mono_r; lia). lia.
    - destruct (Z.le_gt_cases (Zdigits2 P) 106); [assumption|].
      assert (2 ^ 106 <= 2 ^ (Zdigits2 P - 1)) by (apply Z.pow_le_mono_r; lia). lia. }
  unfold mul, SFmul. cbn [xorb]. change (Z.pos (mx * my)) with P.
  assert (Hhi' : Zdigits2 P + (ex + ey) <= emax - 1 \/
                 (Zdigits2 P + (ex + ey) = emax /\ P / 2 ^ (Zdigits2 P - prec) + 1 < 2 ^ prec)).
  { unfold prec, emax in *.
    destruct Hhi as [Hhi | [Hhi1 Hhi2]]; [left; lia|].
    destruct (Z.eq_dec (Zdigits2 P) 106) as [E | E]; [| left; lia].
    destruct (Z.eq_dec (ex + ey) (1024 - 106)) as [E2 | E2]; [| left; lia].
    right. split; [lia|]. rewrite E. change (2 ^ (106 - 53)) with (2 ^ 53).
    assert (P / 2 ^ 53 < 2 ^ 53 - 1); [| lia].
    apply Z.div_lt_upper_bound; [lia|]. fold P in Hhi2. lia. }
  assert (Hlo' : emin <= Zdigits2 P + (ex + ey) - prec)
    by (unfold emin, SpecFloat.emin, prec, emax in *; lia).
  assert (Hd' : prec <= Zdigits2 P) by (unfold prec; lia).
  destruct (@binary_round_aux_near P (ex + ey) loc_Exact
              (B2R (S754_finite false mx ex) * B2R (S754_finite false my ey))
              HP0 Hd' Hlo' Hhi')
    as (m' & e' & Hr & Hb & Hd'' & Hn).
  - cbn [B2R]. rewrite powerRZ_split. rewrite plus_IZR. unfold P. rewrite mult_IZR.
    pose proof (powerRZ_pos ex). pose proof (powerRZ_pos ey).
    assert (0 < IZR (Z.pos mx))%R by (apply IZR_lt; lia).
    assert (0 < IZR (Z.pos my))%R by (apply IZR_lt; lia).
    split; nra.
  - exists m', e'. split; [exact Hr|]. split; [split; assumption | exact Hn].
Qed.

Lemma shr_fexp_none (m e : Z) (l : location) :
  fexp prec emax (Zdigits2 m + e) = e ->
  shr_fexp prec emax m e l = (shr_record_of_loc m l, e).
Proof. intros H. unfold shr_fexp. rewrite H, Z.sub_diag. reflexivity. Qed.

(** A magnitude that fits the format is kept as it is. *)
Lemma binary_round_aux_exact (m : positive) (e : Z) :
  fexp prec emax (Z.pos (digits2_pos m) + e) = e -> e <= emax - prec ->
  binary_round_aux prec emax false (Z.pos m) e loc_Exact = S754_finite false m e.
Proof.
  intros Hf He. unfold binary_round_aux.
  rewrite (shr_fexp_none (Z.pos m) loc_Exact Hf). cbn [shr_record_of_loc shr_m loc_of_shr_record round_nearest_even].
  rewrite (shr_fexp_none (Z.pos m) loc_Exact Hf). cbn [shr_record_of_loc shr_m].
  apply Z.leb_le in He. rewrite He. reflexivity.
Qed.

(** Normalizing a positive integer multiple of a power of two. *)
Lemma binary_round_near (p : positive) (e : Z) :
  emin <= e -> Z.pos (digits2_pos p) + e <= emax - 1 ->
  exists m' e',
    binary_round prec emax false p e = S754_finite false m' e' /\
    bounded prec emax m' e' = true /\
    near (B2R (S754_finite false m' e')) (IZR (Z.pos p) * powerRZ 2 e).
Proof.
  intros He Hhi. unfold binary_round.
  set (d := Z.pos (digits2_pos p)) in *.
  assert (Hv0 : (0 < IZR (Z.pos p) * powerRZ 2 e)%R)
    by (apply Rmult_lt_0_compat; [apply IZR_lt; lia | apply powerRZ_pos]).
  destruct (Z.le_gt_cases prec d) as [Hd | Hd].
  - assert (Hf : fexp prec emax (d + e) = d + e - prec).
    { unfold fexp. fold emin. unfold prec in *. lia. }
    rewrite Hf. unfold shl_align.
    assert (Hlo' : emin <= Zdigits2 (Z.pos p) + e - prec)
      by (change (Zdigits2 (Z.pos p)) with d; unfold prec in *; lia).
    assert (Hhi' : Zdigits2 (Z.pos p) + e <= emax - 1 \/
                   (Zdigits2 (Z.pos p) + e = emax /\
                    Z.pos p / 2 ^ (Zdigits2 (Z.pos p) - prec) + 1 < 2 ^ prec))
      by (left; exact Hhi).
    assert (Hv : (IZR (Z.pos p) * powerRZ 2 e <= IZR (Z.pos p) * powerRZ 2 e
                  <= IZR (Z.pos p + 1) * powerRZ 2 e)%R)
      by (rewrite plus_IZR; pose proof (powerRZ_pos e); nra).
    destruct (@binary_round_aux_near (Z.pos p) e loc_Exact _ ltac:(lia) Hd Hlo' Hhi' Hv)
      as (m' & e' & Hr & Hb & _ & Hn).
    destruct (d + e - prec - e) as [| k | k] eqn:Hk; try (unfold prec in *; lia);
      exists m', e'; auto.
  - set (f := fexp prec emax (d + e)).
    assert (Hfe : f = Z.max (d + e - prec) emin) by reflexivity.
    unfold shl_align.
    destruct (f - e) as [| k | k] eqn:Hk.
    + assert (Hf : fexp prec emax (Z.pos (digits2_pos p) + e) = e) by (fold d; fold f; lia).
      assert (Hehi : e <= emax - prec)
        by (unfold emin, SpecFloat.emin, prec, emax in *; lia).
      rewrite (binary_round_aux_exact _ Hf Hehi).
      exists p, e. split; [reflexivity|]. split.
      * unfold bounded, canonical_mantissa. rewrite Hf, Z.eqb_refl. apply Z.leb_le.
        exact Hehi.
      * apply near_exact. cbn [B2R]. lra.
    + unfold prec in *. lia.
    + assert (Hdz : Z.pos (digits2_pos (Pos.iter xO p k)) + f = d + e).
      { rewrite digits2_iter_xO. fold d. lia. }
      assert (Hf : fexp prec emax (Z.pos (digits2_pos (Pos.iter xO p k)) + f) = f).
      { rewrite Hdz. reflexivity. }
      assert (Hfhi : f <= emax - prec).
      { unfold emin, SpecFloat.emin, prec, emax in *. lia. }
      rewrite (binary_round_aux_exact _ Hf Hfhi).
      exists (Pos.iter xO p k), f. split; [reflexivity|]. split.
      * unfold bounded, canonical_mantissa. rewrite Hf, Z.eqb_refl. apply Z.leb_le. exact Hfhi.
      * replace (IZR (Z.pos p) * powerRZ 2 e)%R with (B2R (S754_finite false (Pos.iter xO p k) f)).
        { apply near_exact. apply Rlt_le, B2R_finite_pos. }
        assert (He2 : powerRZ 2 e = (IZR (2 ^ Z.pos k) * powerRZ 2 f)%R).
        { replace e with (Z.pos k + f) by lia.
          rewrite powerRZ_split, (powerRZ_IZR (e := Z.pos k)) by lia. reflexivity. }
        cbn [B2R]. rewrite iter_xO, mult_IZR, He2. ring.
Qed.

Lemma powerRZ_le_mono (a b : Z) : a <= b -> (powerRZ 2 a <= powerRZ 2 b)%R.
Proof.
  intros H. replace b with ((b - a) + a) by lia.
  rewrite powerRZ_split, (powerRZ_IZR (e := b - a)) by lia.
  pose proof (powerRZ_pos a).
  assert (1 <= IZR (2 ^ (b - a)))%R by (apply IZR_le; pose proof (pow2_pos (e := b - a)); lia).
  nra.
Qed.

Lemma powerRZ_lt_inv (a b : Z) : (powerRZ 2 a < powerRZ 2 b)%R -> a < b.
Proof.
  intros H. destruct (Z.lt_ge_cases a b) as [| Hge]; [assumption|].
  pose proof (powerRZ_le_mono Hge). lra.
Qed.

Lemma shl_align_B2R (m : positive) (e e' : Z) :
  e' <= e ->
  (IZR (Z.pos (fst (shl_align m e e'))) * powerRZ 2 e')%R = B2R (S754_finite false m e).
Proof.
  intros Hle. unfold shl_align. cbn [B2R].
  destruct (e' - e) as [| d | d] eqn:Hd; cbn [fst]; try (replace e' with e by lia; reflexivity); try lia.
  assert (He : powerRZ 2 e = (IZR (2 ^ Z.pos d) * powerRZ 2 e')%R).
  { replace e with (Z.pos d + e') by lia.
    rewrite powerRZ_split, (powerRZ_IZR (e := Z.pos d)) by lia. reflexivity. }
  rewrite iter_xO, mult_IZR, He. ring.
Qed.

(** The difference of two positive doubles, the larger first. *)
Lemma sub_near (mx my : positive) (ex ey : Z) :
  bounded prec emax mx ex = true -> bounded prec emax my ey = true ->
  (B2R (S754_finite false my ey) < B2R (S754_finite false mx ex))%R ->
  (B2R (S754_finite false mx ex) - B2R (S754_finite false my ey) < powerRZ 2 1023)%R ->
  exists m' e',
    sub (S754_finite false mx ex) (S754_finite false my ey) = S754_finite false m' e' /\
    bounded prec emax m' e' = true /\
    near (B2R (S754_finite false m' e'))
         (B2R (S754_finite false mx ex) - B2R (S754_finite false my ey)).
Proof.
  intros Hbx Hby Hlt Hhi.
  destruct (bounded_inv _ _ Hbx) as (Hex & _). destruct (bounded_inv _ _ Hby) as (Hey & _).
  unfold sub, SFsub, cond_Zopp. set (ez := Z.min ex ey).
  pose proof (@shl_align_B2R mx ex ez ltac:(lia)) as Vx.
  pose proof (@shl_align_B2R my ey ez ltac:(lia)) as Vy.
  set (Mx := Z.pos (fst (shl_align mx ex ez))) in *.
  set (My := Z.pos (fst (shl_align my ey ez))) in *.
  rewrite <- Vx, <- Vy in Hlt, Hhi |- *.
  pose proof (powerRZ_pos ez) as Hez.
  assert (HD : 0 < Mx - My).
  { apply Z.lt_0_sub. apply lt_IZR. nra. }
  destruct (Mx - My) as [| p | p] eqn:ED; try lia.
  unfold binary_normalize.
  assert (Hval : (IZR Mx * powerRZ 2 ez - IZR My * powerRZ 2 ez = IZR (Z.pos p) * powerRZ 2 ez)%R).
  { rewrite <- ED, minus_IZR. ring. }
  rewrite Hval in Hhi |- *.
  apply binary_round_near; [lia|].
  pose proof (digits2_pos_bounds p) as Hp.
  assert (Hpow : (powerRZ 2 (Z.pos (digits2_pos p) - 1 + ez) < powerRZ 2 1023)%R).
  { eapply Rle_lt_trans; [| exact Hhi]. rewrite powerRZ_split.
    rewrite (powerRZ_IZR (e := Z.pos (digits2_pos p) - 1)) by lia.
    apply Rmult_le_compat_r; [lra|]. apply IZR_le. lia. }
  apply powerRZ_lt_inv in Hpow. unfold emax. lia.
Qed.

Lemma powerRZ_neg_IZR (k : Z) : 0 <= k -> powerRZ 2 (- k) = (/ IZR (2 ^ k))%R.
Proof.
  intros Hk. pose proof (powerRZ_split (- k) k) as H.
  replace (- k + k) with 0 in H by lia. cbn [powerRZ] in H.
  rewrite (powerRZ_IZR Hk) in H.
  assert (Hp : (0 < IZR (2 ^ k))%R) by (apply IZR_lt, pow2_pos; lia).
  apply Rmult_eq_reg_r with (IZR (2 ^ k)); [| lra].
  rewrite <- H. field. lra.
Qed.

Lemma B2R_bounds (m : positive) (e : Z) :
  (powerRZ 2 (Z.pos (digits2_pos m) - 1 + e) <= B2R (S754_finite false m e)
   < powerRZ 2 (Z.pos (digits2_pos m) + e))%R.
Proof.
  pose proof (digits2_pos_bounds m) as Hb. pose proof (powerRZ_pos e) as He.
  cbn [B2R]. set (d := Z.pos (digits2_pos m)) in *.
  rewrite (powerRZ_split (d - 1) e), (powerRZ_split d e).
  rewrite (powerRZ_IZR (e := d - 1)), (powerRZ_IZR (e := d)) by (unfold d; lia). split.
  - apply Rmult_le_compat_r; [lra | apply IZR_le; lia].
  - apply Rmult_lt_compat_r; [lra | apply IZR_lt; lia].
Qed.

(** The quotient of a positive double by a normal one, away from underflow
    and overflow. *)
Lemma div_near (m1 m2 : positive) (e1 e2 : Z) :
  bounded prec emax m1 e1 = true -> Z.pos (digits2_pos m2) = prec ->
  let e' := Z.pos (digits2_pos m1) + e1 - e2 - 106 in
  emin <= e' -> e' <= emax - 55 ->
  exists m' e'',
    div (S754_finite false m1 e1) (S754_finite false m2 e2) = S754_finite false m' e'' /\
    normal m' e'' /\
    near (B2R (S754_finite false m' e''))
         (B2R (S754_finite false m1 e1) / B2R (S754_finite false m2 e2)).
Proof.
  intros Hb1 Hd2 e' Hlo Hhi.
  destruct (bounded_inv _ _ Hb1) as (_ & Hd1 & _).
  pose proof (digits2_pos_bounds m1) as Hm1. pose proof (mantissa_range _ Hd2) as Hm2.
  set (d1 := Z.pos (digits2_pos m1)) in *.
  assert (Hd1p : 1 <= d1) by (unfold d1; lia).
  unfold div, SFdiv, SFdiv_core_binary. cbn [xorb Zdigits2]. fold d1. rewrite Hd2.
  assert (Hf : fexp prec emax (d1 + e1 - (prec + e2)) = e').
  { unfold fexp. fold emin. unfold e', prec in *. lia. }
  rewrite Hf.
  assert (Hmin : Z.min e' (e1 - e2) = e') by (unfold e', prec in *; lia).
  rewrite Hmin.
  set (s := 106 - d1).
  assert (Hs : e1 - e2 - e' = s) by (unfold e', s; lia).
  rewrite Hs.
  assert (Hspos : 0 < s) by (unfold s, prec in *; lia).
  destruct s as [| sp | sp] eqn:Es; try lia. rewrite <- Es in *. clear Es sp.
  rewrite Z.shiftl_mul_pow2 by lia.
  set (N := Z.pos m1 * 2 ^ s).
  assert (HN : 2 ^ 105 <= N < 2 ^ 106).
  { unfold N. replace 105 with ((d1 - 1) + s) by (unfold s; lia).
    replace 106 with (d1 + s) by (unfold s; lia).
    rewrite !Z.pow_add_r by lia. pose proof (pow2_pos (e := s)) as Hp.
    split; [apply Z.mul_le_mono_nonneg_r; lia | apply Z.mul_lt_mono_pos_r; lia]. }
  pose proof (Z_div_mod N (Z.pos m2) ltac:(lia)) as Hdm.
  destruct (Z.div_eucl N (Z.pos m2)) as [q r]. destruct Hdm as [HNq Hr].
  unfold prec in *.
  change (2 ^ 52) with 4503599627370496 in Hm2. change (2 ^ 53) with 9007199254740992 in Hm2.
  change (2 ^ 105) with (4503599627370496 * 9007199254740992) in HN.
  change (2 ^ 106) with (4503599627370496 * 18014398509481984) in HN.
  assert (Hq : 4503599627370496 <= q < 18014398509481984) by nia.
  assert (Hq0 : 0 < q) by lia.
  assert (Hdq : 53 <= Zdigits2 q <= 54).
  { pose proof (Zdigits2_bounds Hq0) as Hbq. split.
    - destruct (Z.le_gt_cases 53 (Zdigits2 q)); [assumption|].
      assert (2 ^ Zdigits2 q <= 2 ^ 52) by (apply Z.pow_le_mono_r; lia).
      change (2 ^ 52) with 4503599627370496 in *. lia.
    - destruct (Z.le_gt_cases (Zdigits2 q) 54); [assumption|].
      assert (2 ^ 54 <= 2 ^ (Zdigits2 q - 1)) by (apply Z.pow_le_mono_r; lia).
      change (2 ^ 54) with 18014398509481984 in *. lia. }
  assert (Hv : (IZR q * powerRZ 2 e' <=
                B2R (S754_finite false m1 e1) / B2R (S754_finite false m2 e2)
                <= IZR (q + 1) * powerRZ 2 e')%R).
  { cbn [B2R].
    assert (He1 : powerRZ 2 e1 = (IZR (2 ^ s) * powerRZ 2 e' * powerRZ 2 e2)%R).
    { replace e1 with (s + e' + e2) by lia.
      rewrite !powerRZ_split, (powerRZ_IZR (e := s)) by lia. reflexivity. }
    rewrite He1. pose proof (powerRZ_pos e') as Pe'. pose proof (powerRZ_pos e2) as Pe2.
    assert (Hm2R : (0 < IZR (Z.pos m2))%R) by (apply IZR_lt; lia).
    replace (IZR (Z.pos m1) * (IZR (2 ^ s) * powerRZ 2 e' * powerRZ 2 e2) /
             (IZR (Z.pos m2) * powerRZ 2 e2))%R
      with (IZR N / IZR (Z.pos m2) * powerRZ 2 e')%R
      by (unfold N; rewrite mult_IZR; field; lra).
    assert (HqR : (IZR q <= IZR N / IZR (Z.pos m2) <= IZR (q + 1))%R).
    { split.
      - apply Rmult_le_reg_r with (IZR (Z.pos m2)); [assumption|].
        replace (IZR N / IZR (Z.pos m2) * IZR (Z.pos m2))%R with (IZR N) by (field; lra).
        rewrite <- mult_IZR. apply IZR_le. lia.
      - apply Rmult_le_reg_r with (IZR (Z.pos m2)); [assumption|].
        replace (IZR N / IZR (Z.pos m2) * IZR (Z.pos m2))%R with (IZR N) by (field; lra).
        rewrite <- mult_IZR. apply IZR_le. nia. }
    split; apply Rmult_le_compat_r; lra. }
  assert (C1 : prec <= Zdigits2 q) by (unfold prec; lia).
  assert (C2 : emin <= Zdigits2 q + e' - prec)
    by (unfold prec, emin, SpecFloat.emin, emax in *; lia).
  assert (C3 : Zdigits2 q + e' <= emax - 1 \/
               (Zdigits2 q + e' = emax /\ q / 2 ^ (Zdigits2 q - prec) + 1 < 2 ^ prec))
    by (left; unfold emax in *; lia).
  destruct (@binary_round_aux_near q e' (new_location (Z.pos m2) r) _ Hq0 C1 C2 C3 Hv)
    as (m' & e'' & Hr' & Hb' & Hd' & Hn).
  exists m', e''. split; [exact Hr'|]. split; [split; assumption | exact Hn].
Qed.

Lemma Math_round_18 (m : positive) (e : Z) :
  Z.pos (digits2_pos m) = prec ->
  (35 / 2 < B2R (S754_finite false m e) < 37 / 2)%R ->
  Math_round (S754_finite false m e) = of_Z 18.
Proof.
  intros Hd [Hlo Hhi]. pose proof (B2R_bounds m e) as [B1 B2]. rewrite Hd in B1, B2.
  unfold prec in *.
  assert (He : e = -48).
  { assert (H1 : (powerRZ 2 (53 - 1 + e) < powerRZ 2 5)%R).
    { eapply Rle_lt_trans; [exact B1|]. eapply Rlt_trans; [exact Hhi|].
      rewrite (powerRZ_IZR (e := 5)) by lia. change (2 ^ 5) with 32. lra. }
    assert (H2 : (powerRZ 2 4 < powerRZ 2 (53 + e))%R).
    { eapply Rlt_trans; [| exact B2]. eapply Rlt_trans; [| exact Hlo].
      rewrite (powerRZ_IZR (e := 4)) by lia. change (2 ^ 4) with 16. lra. }
    apply powerRZ_lt_inv in H1, H2. lia. }
  subst e. cbn [B2R] in Hlo, Hhi.
  assert (P48 : powerRZ 2 (-48) = (/ 281474976710656)%R)
    by (apply (powerRZ_neg_IZR (k := 48)); lia).
  rewrite P48 in Hlo, Hhi.
  assert (Hm : 35 * 140737488355328 < Z.pos m < 37 * 140737488355328).
  { split; apply lt_IZR; rewrite mult_IZR; lra. }
  cbn [Math_round]. change (0 <=? -48) with false. cbv iota.
  change (2 ^ (- (-48))) with 281474976710656.
  change (2 ^ (1 - (-48))) with 562949953421312.
  assert (Hn : (2 * Z.pos m + 281474976710656) / 562949953421312 = 18).
  { symmetry. apply Z.div_unique with (2 * Z.pos m + 281474976710656 - 18 * 562949953421312); lia. }
  rewrite Hn. reflexivity.
Qed.

Lemma B2R_n0_85 : B2R n0_85 = (7656119366529843 / 9007199254740992)%R.
Proof.
  unfold n0_85. cbn [B2R].
  assert (P : powerRZ 2 (-53) = (/ 9007199254740992)%R)
    by (apply (powerRZ_neg_IZR (k := 53)); lia).
  rewrite P. reflexivity.
Qed.

Lemma B2R_n100 : B2R n100 = 100%R.
Proof.
  unfold n100. cbn [B2R].
  assert (P : powerRZ 2 (-46) = (/ 70368744177664)%R)
    by (apply (powerRZ_neg_IZR (k := 46)); lia).
  rewrite P. field.
Qed.

Lemma powerRZ_shift (k e : Z) :
  0 <= k -> powerRZ 2 (k + e) = (IZR (2 ^ k) * powerRZ 2 e)%R.
Proof. intros Hk. rewrite powerRZ_split, (powerRZ_IZR Hk). reflexivity. Qed.

(** For a normal double [m] of at least [2^-1021], the growth computed
    from [m] and [0.85 * m] rounds to 18. *)
Lemma growth_normal (M : positive) (e : Z) :
  normal M e -> -1073 <= e ->
  Math_round (calculateGrowth (S754_finite false M e)
                              (mul (S754_finite false M e) n0_85)) = of_Z 18.
Proof.
  intros [HbM HdM] He.
  destruct (bounded_inv _ _ HbM) as (HeM & _).
  pose proof (mantissa_range _ HdM) as HM.
  set (m := S754_finite false M e). set (vm := B2R m).
  assert (Hvm : (0 < vm)%R) by apply B2R_finite_pos.
  pose proof eps_pos as Heps.
  (* y = m * 0.85 *)
  destruct (@mul_near M 7656119366529843 e (-53) HdM eq_refl)
    as (my & ey & Ey & [Hby Hdy] & Ny).
  { unfold emin, SpecFloat.emin, prec, emax. lia. }
  { right. unfold prec, emax in *. split; [lia|].
    change (2 ^ 53) with 9007199254740992 in *. nia. }
  fold m in Ey, Ny. change (S754_finite false 7656119366529843 (-53)) with n0_85 in Ey, Ny.
  rewrite B2R_n0_85 in Ny. fold vm in Ny. rewrite Ey.
  set (y := S754_finite false my ey) in *. set (vy := B2R y) in *.
  unfold near in Ny.
  assert (Hy : (8499 / 10000 * vm <= vy <= 8501 / 10000 * vm)%R) by (unfold eps in *; lra).
  (* d = m - y *)
  assert (Hvm_hi : (vm < 2 * powerRZ 2 1023)%R).
  { pose proof (B2R_bounds M e) as [_ B2]. rewrite HdM in B2. fold m in B2. fold vm in B2.
    eapply Rlt_le_trans; [exact B2|].
    assert (P : powerRZ 2 1024 = (2 * powerRZ 2 1023)%R)
      by (apply (powerRZ_shift (k := 1) 1023); lia).
    rewrite <- P. apply powerRZ_le_mono. unfold prec, emax in *. lia. }
  destruct (@sub_near M my e ey HbM Hby) as (md & ed & Ed & Hbd & Nd).
  { fold m y vm vy. lra. }
  { fold m y vm vy. pose proof (powerRZ_pos 1023). lra. }
  fold m y vm vy in Ed, Nd.
  set (d := S754_finite false md ed) in *. set (vd := B2R d) in *.
  unfold near in Nd.
  assert (Hd : (1498 / 10000 * vm <= vd <= 1502 / 10000 * vm)%R) by (unfold eps in *; lra).
  (* q = d / y *)
  pose proof (B2R_bounds md ed) as [Bd1 Bd2]. fold d vd in Bd1, Bd2.
  pose proof (B2R_bounds my ey) as [By1 By2]. rewrite Hdy in By1, By2. fold y vy in By1, By2.
  set (dd := Z.pos (digits2_pos md)) in *.
  assert (He' : -56 <= dd + ed - ey - 106 <= -55).
  { assert (H1 : (powerRZ 2 (dd - 1 + ed) < powerRZ 2 (51 + ey))%R).
    { eapply Rle_lt_trans; [exact Bd1|].
      replace (prec + ey) with (2 + (51 + ey)) in By2 by (unfold prec; lia).
      rewrite (powerRZ_shift (k := 2)) in By2 by lia. change (2 ^ 2) with 4 in By2. lra. }
    assert (H2 : (powerRZ 2 (49 + ey) < powerRZ 2 (dd + ed))%R).
    { eapply Rlt_trans; [| exact Bd2].
      replace (prec - 1 + ey) with (3 + (49 + ey)) in By1 by (unfold prec; lia).
      rewrite (powerRZ_shift (k := 3)) in By1 by lia. change (2 ^ 3) with 8 in By1. lra. }
    apply powerRZ_lt_inv in H1, H2. lia. }
  unfold calculateGrowth.
  change (strict_eq (S754_finite false my ey) zero) with false. cbv iota.
  fold y. rewrite Ed.
  destruct (@div_near md my ed ey Hbd Hdy) as (mq & eq & Eq & [Hbq Hdq] & Nq).
  { fold dd. unfold emin, SpecFloat.emin, prec, emax. lia. }
  { fold dd. unfold emax. lia. }
  fold d y vd vy in Eq, Nq. fold d. rewrite Eq.
  set (q := S754_finite false mq eq) in *. set (vq := B2R q) in *.
  assert (Hvy : (0 < vy)%R) by lra.
  set (w := (vd / vy)%R) in *.
  assert (Hw : (1762 / 10000 <= w <= 1768 / 10000)%R).
  { assert (Hwy : (w * vy = vd)%R) by (unfold w; field; lra). split.
    - apply Rmult_le_reg_r with vy; [assumption|]. rewrite Hwy. lra.
    - apply Rmult_le_reg_r with vy; [assumption|]. rewrite Hwy. lra. }
  unfold near in Nq.
  assert (Hq : (1761 / 10000 <= vq <= 1769 / 10000)%R) by (unfold eps in *; lra).
  (* g = q * 100 *)
  pose proof (B2R_bounds mq eq) as [Bq1 Bq2]. rewrite Hdq in Bq1, Bq2. fold q vq in Bq1, Bq2.
  assert (Heq : eq = -55).
  { assert (H1 : (powerRZ 2 (prec - 1 + eq) < powerRZ 2 (-2))%R).
    { eapply Rle_lt_trans; [exact Bq1|].
      assert (P : powerRZ 2 (-2) = (/ 4)%R) by (apply (powerRZ_neg_IZR (k := 2)); lia).
      rewrite P. lra. }
    assert (H2 : (powerRZ 2 (-3) < powerRZ 2 (prec + eq))%R).
    { eapply Rlt_trans; [| exact Bq2].
      assert (P : powerRZ 2 (-3) = (/ 8)%R) by (apply (powerRZ_neg_IZR (k := 3)); lia).
      rewrite P. lra. }
    apply powerRZ_lt_inv in H1, H2. unfold prec in *. lia. }
  destruct (@mul_near mq 7036874417766400 eq (-46) Hdq eq_refl)
    as (mg & eg & Eg & [Hbg Hdg] & Ng).
  { unfold emin, SpecFloat.emin, prec, emax. lia. }
  { left. unfold emax. lia. }
  fold q in Eg, Ng. change (S754_finite false 7036874417766400 (-46)) with n100 in Eg, Ng.
  rewrite B2R_n100 in Ng. fold vq in Ng. rewrite Eg.
  apply Math_round_18; [exact Hdg|].
  unfold near in Ng. unfold eps in *. lra.
Qed.

(** C10, as the code has it: for two positive numbers whose smaller value
    [m] is finite and at least [2^-1021], lastMonth is synthesized from
    0.85 times [m] and the growth is the constant 18.  (Below that range
    the product 0.85 * m is rounded too coarsely for the quotient to stay
    near 17.6.) *)
Theorem growth_of_two_is_18 (a b : number) :
  positive_double a -> positive_double b ->
  let m := if lt a b then a else b in
  isFinite m = true ->
  le (S754_finite false 4503599627370496 (-1073)) m = true ->
  estimateBreakdown [a; b] =
    {| Breakdown.thisMonth := Math_round m;
       Breakdown.lastMonth := Math_round (mul m (of_decimal 85 2));
       Breakdown.growth := of_Z 18 |}.
Proof.
  intros Ha Hb m Hfin Hle.
  assert (Hm : positive_double m) by (unfold m; destruct (lt a b); assumption).
  rewrite (estimateBreakdown_two Ha Hb). fold m. f_equal.
  destruct (positive_double_inv Hm) as [E | (M & e & E & HbM)];
    rewrite E in Hfin, Hle |- *; [discriminate|].
  assert (Hc : positive_double (S754_finite false 4503599627370496 (-1073)))
    by (split; reflexivity).
  rewrite <- E in Hle. rewrite (le_rank Hc Hm) in Hle. rewrite E in Hle.
  apply Z.leb_le in Hle. unfold rank, units in Hle.
  change (Z.pos 4503599627370496 * 2 ^ (-1073 + 1074)) with (2 ^ 53) in Hle.
  destruct (bounded_inv _ _ HbM) as (He & Hd & Hn).
  pose proof (digits2_pos_bounds M) as HM.
  unfold emin, SpecFloat.emin, prec, emax in *.
  assert (He1 : -1073 <= e).
  { destruct (Z.eq_dec e (-1074)) as [-> | Hne]; [| lia].
    change (2 ^ (-1074 + 1074)) with 1 in Hle.
    assert (2 ^ Z.pos (digits2_pos M) <= 2 ^ 53) by (apply Z.pow_le_mono_r; lia). lia. }
  apply growth_normal; [| exact He1].
  split; [exact HbM | apply Hn; lia].
Qed.

Lemma growth_of_two_is_18_witness :
  let a := of_Z 10200 in
  let b := of_Z 12450 in
  positive_double a /\ positive_double b /\
  isFinite a = true /\
  le (S754_finite false 4503599627370496 (-1073)) a = true /\
  Breakdown.growth (estimateBreakdown [a; b]) = of_Z 18.
Proof.
  cbv zeta.
  assert (Ha : positive_double (of_Z 10200)) by (split; reflexivity).
  assert (Hb : positive_double (of_Z 12450)) by (split; reflexivity).
  split; [exact Ha|]. split; [exact Hb|]. split; [reflexivity|]. split; [reflexivity|].
  rewrite (growth_of_two_is_18 Ha Hb eq_refl eq_refl). reflexivity.
Defined.
